(** * The trending-news feed aggregator (app/api/trending/route.ts)

    A shallow embedding of the route handler [GET], of its helper
    [extractImage] and of the two regular expressions they use, followed by
    the properties of the aggregation pipeline. The two copies of the
    handler in the source differ in type casts only and share this model.

    JavaScript strings are sequences of UTF-16 code units; they are modelled
    as lists of code units, so that [length], [firstn] and [++] are the
    string's [.length], [.slice(0, n)] and [+]. *)

From Stdlib Require Import String Ascii NArith Arith Bool List Lia.
Import ListNotations.


(** ** Strings *)

Definition codeunit := N.
Definition jsstring := list codeunit.

(** An ASCII literal of the source, as a JavaScript string. *)
Definition js (s : string) : jsstring :=
  List.map N_of_ascii (list_ascii_of_string s).

Definition jsstring_eqb (a b : jsstring) : bool :=
  if list_eq_dec N.eq_dec a b then true else false.

(** Named code units of the characters the patterns mention. *)
Definition ch_lt : codeunit := 60%N.     (* < *)
Definition ch_gt : codeunit := 62%N.     (* > *)
Definition ch_slash : codeunit := 47%N.  (* / *)
Definition ch_dquote : codeunit := 34%N. (* double quote *)
Definition ch_squote : codeunit := 39%N. (* single quote *)

(** ** Regular expressions

    The fragment of ECMAScript patterns that the two literals of the source
    use: pattern characters, character classes, greedy quantifiers over a
    single character or class, sequence, alternation, one capturing group
    and the end-of-input assertion. *)

Inductive cset : Type :=
| CChar (c : codeunit)            (* a pattern character *)
| COneOf (cs : list codeunit)     (* [...]  *)
| CNoneOf (cs : list codeunit).   (* [^...] *)

Inductive regex : Type :=
| RSet (c : cset)
| RStar (c : cset)                (* c*  greedy *)
| RPlus (c : cset)                (* c+  greedy *)
| ROpt (c : cset)                 (* c?  greedy *)
| RSeq (r1 r2 : regex)
| RAlt (r1 r2 : regex)
| RGroup (r : regex)              (* ( r ), the only capturing group *)
| REnd                            (* $ without the m flag *)
| REmpty.

(** Canonicalize of the specification for a pattern without the u flag: the
    upper-case mapping, except that a code unit of 128 and above never maps
    into ASCII. Every character of the patterns below is ASCII, so a code
    unit of 128 and above differs from each of them before and after the real
    mapping, and it is left as it is here. *)
Definition canonicalize (ignoreCase : bool) (c : codeunit) : codeunit :=
  if ignoreCase && (97 <=? c)%N && (c <=? 122)%N then (c - 32)%N else c.

Definition char_eqb (ignoreCase : bool) (a b : codeunit) : bool :=
  (canonicalize ignoreCase a =? canonicalize ignoreCase b)%N.

Definition cset_match (ignoreCase : bool) (c : cset) (x : codeunit) : bool :=
  match c with
  | CChar a => char_eqb ignoreCase a x
  | COneOf cs => existsb (fun a => char_eqb ignoreCase a x) cs
  | CNoneOf cs => negb (existsb (fun a => char_eqb ignoreCase a x) cs)
  end.

(** The state of a match: the input that is left, and what group 1 holds. *)
Definition mstate : Type := (jsstring * option jsstring)%type.

(** The continuation that ends a match. *)
Definition accept : jsstring -> option jsstring -> option mstate :=
  fun s cap => Some (s, cap).

Section Matcher.
Variable ignoreCase : bool.

(** Backtracking matchers in continuation-passing style, as in the
    specification of RegExp: a matcher runs its continuation on the input
    that it leaves, and tries its next choice when the continuation fails.
    A greedy quantifier tries the longest repetition first. *)
Fixpoint star_match (c : cset) (k : jsstring -> option mstate) (s : jsstring)
  : option mstate :=
  match s with
  | x :: t =>
      if cset_match ignoreCase c x then
        match star_match c k t with
        | Some r => Some r
        | None => k s
        end
      else k s
  | [] => k s
  end.

Fixpoint rmatch (r : regex) (k : jsstring -> option jsstring -> option mstate)
  (s : jsstring) (cap : option jsstring) : option mstate :=
  match r with
  | RSet c =>
      match s with
      | x :: t => if cset_match ignoreCase c x then k t cap else None
      | [] => None
      end
  | RStar c => star_match c (fun s' => k s' cap) s
  | RPlus c =>
      match s with
      | x :: t =>
          if cset_match ignoreCase c x
          then star_match c (fun s' => k s' cap) t
          else None
      | [] => None
      end
  | ROpt c =>
      match s with
      | x :: t =>
          if cset_match ignoreCase c x then
            match k t cap with
            | Some res => Some res
            | None => k s cap
            end
          else k s cap
      | [] => k s cap
      end
  | RSeq r1 r2 => rmatch r1 (fun s' cap' => rmatch r2 k s' cap') s cap
  | RAlt r1 r2 =>
      match rmatch r1 k s cap with
      | Some res => Some res
      | None => rmatch r2 k s cap
      end
  | RGroup r1 =>
      rmatch r1
        (fun s' _ => k s' (Some (firstn (length s - length s') s))) s cap
  | REnd => match s with [] => k s cap | _ :: _ => None end
  | REmpty => k s cap
  end.

(** One attempt at the current position. *)
Definition match_at (r : regex) (s : jsstring) : option mstate :=
  rmatch r accept s None.

(** RegExpBuiltinExec without the g flag: the first position, from the
    left, where an attempt succeeds; the end of the input is tried too. *)
Fixpoint exec (r : regex) (s : jsstring) : option mstate :=
  match match_at r s with
  | Some res => Some res
  | None =>
      match s with
      | [] => None
      | _ :: t => exec r t
      end
  end.

(** [s.replace(r, empty)] with the g flag. [skip] counts the code units of
    the current match that are still to be dropped; an empty match drops
    nothing and the search moves on by one code unit. *)
Fixpoint replace_from (r : regex) (skip : nat) (s : jsstring) : jsstring :=
  match s with
  | [] => []
  | c :: t =>
      match skip with
      | S n => replace_from r n t
      | O =>
          match match_at r s with
          | Some (rest, _) =>
              match length s - length rest with
              | S n => replace_from r n t
              | O => c :: replace_from r 0 t
              end
          | None => c :: replace_from r 0 t
          end
      end
  end.

Definition replace_all (r : regex) (s : jsstring) : jsstring :=
  replace_from r 0 s.
End Matcher.

(** A run of pattern characters. *)
Fixpoint RLit (cs : jsstring) (r : regex) : regex :=
  match cs with
  | [] => r
  | c :: cs' => RSeq (RSet (CChar c)) (RLit cs' r)
  end.

Definition quotes : list codeunit := [ch_dquote; ch_squote].

(** The literal of [extractImage], with flag i:
    [<img [^>]*src=[Q]([^Q]+)[Q]], where the class Q holds the double and
    the single quote. *)
Definition img_quoted : regex :=
  RSeq (RSet (COneOf quotes))
    (RSeq (RGroup (RPlus (CNoneOf quotes)))
       (RSet (COneOf quotes))).

Definition img_src : regex := RLit (js "src=") img_quoted.

Definition img_regex : regex :=
  RLit (js "<img ") (RSeq (RStar (CNoneOf [ch_gt])) img_src).

(** The literal of the snippet, with flag g: [<\/?[^>]+(>|$)]. *)
Definition tag_close : regex := RGroup (RAlt (RSet (CChar ch_gt)) REnd).

Definition tag_body : regex := RSeq (RPlus (CNoneOf [ch_gt])) tag_close.

Definition tag_regex : regex :=
  RSeq (RSet (CChar ch_lt)) (RSeq (ROpt (CChar ch_slash)) tag_body).

(** ** extractImage

    [html?: string] is [None] for undefined. [!html] holds of undefined and
    of the empty string; [match[1]] is what group 1 holds. *)
Definition extractImage (html : option jsstring) : option jsstring :=
  match html with
  | None => None
  | Some [] => None
  | Some s =>
      match exec true img_regex s with
      | Some (_, cap) => cap
      | None => None
      end
  end.

(** [text.replace(tag_regex, empty)] *)
Definition strip_tags (text : jsstring) : jsstring :=
  replace_all false tag_regex text.

Definition ellipsis : jsstring := js "...".

(** [text.replace(...).slice(0, 225)] followed by the three dots. *)
Definition snippet_of (text : jsstring) : jsstring :=
  firstn 225 (strip_tags text) ++ ellipsis.

(** ** Values and records

    The fields that the handler reads are declared [string | undefined] by
    the parser's types ([None] is undefined), except [categories], which the
    handler inspects with [Array.isArray] and [typeof] and which is therefore
    kept as an arbitrary value. The handler never looks inside a number, a
    boolean or an object.

    These records are the outputs of the parser that respect its types. On
    them the callback never throws. An output that breaks the types (an
    element with attributes arrives as an object) can make it throw, and the
    catch then answers 500: the records [RawItem.t] and [RawParsed.t] and the
    handler [GET_raw] further down cover every output, and agree with the
    definitions here on the outputs that respect the types. *)

#[local] Unset Elimination Schemes.
Inductive JsVal : Type :=
| JsUndefined
| JsNull
| JsBoolean (b : bool)
| JsNumber (n : N)
| JsString (s : jsstring)
| JsArray (elems : list JsVal)
| JsObject (props : list (jsstring * JsVal)).
#[local] Set Elimination Schemes.

(** An entry of a parsed feed. [contentEncoded] and [creator] are the keys
    that the parser's customFields fill; [content_encoded] is the key
    ['content:encoded']. *)
Module Item.
Record t : Type := mk {
  title : option jsstring;
  link : option jsstring;
  pubDate : option jsstring;
  creator : option jsstring;
  contentEncoded : option jsstring;
  contentSnippet : option jsstring;
  content_encoded : option jsstring;
  description : option jsstring;
  categories : JsVal
}.
End Item.

Module Image.
Record t : Type := mk { url : option jsstring }.
End Image.

(** The resolved value of [parser.parseURL]. *)
Module Parsed.
Record t : Type := mk {
  title : option jsstring;
  description : option jsstring;
  image : option Image.t;
  items : list Item.t
}.
End Parsed.

(** The type [FeedItem] of the source: the article sent to the client.
    [image = None] is an undefined [image], which the JSON body leaves out. *)
Module FeedItem.
Record t : Type := mk {
  title : jsstring;
  link : jsstring;
  pubDate : jsstring;
  channel : jsstring;
  contentSnippet : jsstring;
  categories : list JsVal;
  image : option jsstring
}.
End FeedItem.

Module Feed.
Record t : Type := mk { name : jsstring; url : jsstring }.
End Feed.

Definition FEEDS : list Feed.t :=
  [ Feed.mk (js "Google News")
      (js "https://news.google.com/rss?hl=en-US&gl=US&ceid=US:en");
    Feed.mk (js "TechCrunch") (js "https://techcrunch.com/feed/");
    Feed.mk (js "BBC World") (js "http://feeds.bbci.co.uk/news/world/rss.xml");
    Feed.mk (js "Hacker News") (js "https://hnrss.org/frontpage");
    Feed.mk (js "The Verge") (js "https://www.theverge.com/rss/index.xml");
    Feed.mk (js "Wired") (js "https://www.wired.com/feed/rss");
    Feed.mk (js "Engadget") (js "https://www.engadget.com/rss.xml");
    Feed.mk (js "Kaundal VIP") (js "https://kaundal.vip/feed/") ].

(** ** Operators *)

(** ToBoolean of a [string | undefined]: undefined and the empty string are
    falsy. *)
Definition truthy (v : option jsstring) : bool :=
  match v with
  | Some (_ :: _) => true
  | _ => false
  end.

(** [a || b] *)
Definition js_or (a b : option jsstring) : option jsstring :=
  if truthy a then a else b.

(** [a || b] where [b] is a string *)
Definition js_or_string (a : option jsstring) (b : jsstring) : jsstring :=
  match a with
  | Some (c :: s) => c :: s
  | _ => b
  end.

(** [a ?? b] where [b] is a string *)
Definition js_nullish (a : option jsstring) (b : jsstring) : jsstring :=
  match a with
  | Some s => s
  | None => b
  end.

(** ** Ordinary objects as maps

    The properties of an object, in creation order. Its keys are listed
    array indices first, in ascending order, then the other strings in
    creation order (OrdinaryOwnPropertyKeys); JSON.stringify and Object.keys
    follow that order. *)
Definition JsRecord (V : Type) : Type := list (jsstring * V).

Definition digit_val (c : codeunit) : option N :=
  if ((48 <=? c) && (c <=? 57))%N then Some (c - 48)%N else None.

Fixpoint decimal_val (acc : N) (s : jsstring) : option N :=
  match s with
  | [] => Some acc
  | c :: t =>
      match digit_val c with
      | Some d => decimal_val (acc * 10 + d)%N t
      | None => None
      end
  end.

(** The canonical numeric strings below 2^32 - 1. *)
Definition array_index (k : jsstring) : option N :=
  match k with
  | [] => None
  | c :: t =>
      if (c =? 48)%N then match t with [] => Some 0%N | _ :: _ => None end
      else
        match decimal_val 0 k with
        | Some v => if (v <? 4294967295)%N then Some v else None
        | None => None
        end
  end.

Fixpoint insert_index (n : N) (k : jsstring) (l : list (N * jsstring))
  : list (N * jsstring) :=
  match l with
  | [] => [(n, k)]
  | (m, k') :: l' =>
      if (n <=? m)%N then (n, k) :: l else (m, k') :: insert_index n k l'
  end.

Fixpoint index_keys (ks : list jsstring) : list (N * jsstring) :=
  match ks with
  | [] => []
  | k :: t =>
      match array_index k with
      | Some n => insert_index n k (index_keys t)
      | None => index_keys t
      end
  end.

Definition string_keys (ks : list jsstring) : list jsstring :=
  filter (fun k => match array_index k with None => true | Some _ => false end)
    ks.

Section JsRecord.
Context {V : Type}.

Fixpoint obj_get (k : jsstring) (o : JsRecord V) : option V :=
  match o with
  | [] => None
  | (k', v) :: o' => if jsstring_eqb k' k then Some v else obj_get k o'
  end.

Fixpoint obj_put (k : jsstring) (v : V) (o : JsRecord V) : JsRecord V :=
  match o with
  | [] => [(k, v)]
  | (k', v') :: o' =>
      if jsstring_eqb k' k then (k', v) :: o' else (k', v') :: obj_put k v o'
  end.

(** [o[k] = v] on an object created by [{}], where [v] is an array:
    the key [__proto__] reaches the setter of Object.prototype, which
    changes the prototype and creates no property; every other key
    creates the property or overwrites it in place. *)
Definition obj_assign (k : jsstring) (v : V) (o : JsRecord V) : JsRecord V :=
  if jsstring_eqb k (js "__proto__") then o else obj_put k v o.

Definition own_keys (o : JsRecord V) : list jsstring :=
  List.map snd (index_keys (List.map fst o)) ++ string_keys (List.map fst o).
End JsRecord.

Definition FeedsResult : Type := JsRecord (list FeedItem.t).

(** ** The handler *)

Module JsError.
Record t : Type := mk { message : jsstring }.
End JsError.

(** [await parser.parseURL(url)] gives the parsed feed or throws. *)
Inductive Settled : Type :=
| Fulfilled (parsed : Parsed.t)
| Rejected (e : JsError.t).

Inductive Body : Type :=
| FeedsBody (feeds : FeedsResult)      (* { feeds: results } *)
| ErrorBody (error : jsstring).        (* { error: e.message } *)

Module Response.
Record t : Type := mk { status : nat; body : Body }.
End Response.

(** [parsed.image?.url || extractImage(parsed.description)] *)
Definition channelImage (parsed : Parsed.t) : option jsstring :=
  js_or
    (match Parsed.image parsed with
     | Some im => Image.url im
     | None => None
     end)
    (extractImage (Parsed.description parsed)).

(** The resolved description of an entry. *)
Definition desc (item : Item.t) : jsstring :=
  js_or_string
    (js_or
       (js_or
          (js_or (Item.contentEncoded item) (Item.contentSnippet item))
          (Item.content_encoded item))
       (Item.description item))
    [].

Definition categories (item : Item.t) : list JsVal :=
  match Item.categories item with
  | JsArray elems => elems
  | JsString s => [JsString s]
  | _ => []
  end.

Definition img (parsed : Parsed.t) (item : Item.t) : option jsstring :=
  js_or
    (js_or (extractImage (Some (desc item)))
       (extractImage (Item.contentSnippet item)))
    (channelImage parsed).

(** The callback of [parsed.items.slice(0, 10).map]. *)
Definition build_item (feed : Feed.t) (parsed : Parsed.t) (item : Item.t)
  : FeedItem.t :=
  {| FeedItem.title := js_nullish (Item.title item) [];
     FeedItem.link := js_nullish (Item.link item) [];
     FeedItem.pubDate := js_nullish (Item.pubDate item) [];
     FeedItem.channel :=
       js_or_string (js_or (Item.creator item) (Parsed.title parsed))
         (Feed.name feed);
     FeedItem.contentSnippet := snippet_of (desc item);
     FeedItem.categories := categories item;
     FeedItem.image := img parsed item |}.

Section Handler.
(** What the network answers to each URL during one call. *)
Variable parseURL : jsstring -> Settled.

(** The loop [for (const feed of FEEDS)], from the state [results]; the
    first exception leaves the loop. *)
Fixpoint aggregate (feeds : list Feed.t) (results : FeedsResult)
  : FeedsResult + JsError.t :=
  match feeds with
  | [] => inl results
  | feed :: rest =>
      match parseURL (Feed.url feed) with
      | Rejected e => inr e
      | Fulfilled parsed =>
          aggregate rest
            (obj_assign (Feed.name feed)
               (List.map (build_item feed parsed)
                  (firstn 10 (Parsed.items parsed)))
               results)
      end
  end.

Definition fulfilled (feed : Feed.t) : Prop :=
  exists parsed, parseURL (Feed.url feed) = Fulfilled parsed.

(** What a fulfilled source stores under its name. *)
Definition bucket (feed : Feed.t) : list FeedItem.t :=
  match parseURL (Feed.url feed) with
  | Fulfilled parsed =>
      List.map (build_item feed parsed) (firstn 10 (Parsed.items parsed))
  | Rejected _ => []
  end.

Definition store (results : FeedsResult) (feed : Feed.t) : FeedsResult :=
  obj_assign (Feed.name feed) (bucket feed) results.

Definition GET : Response.t :=
  match aggregate FEEDS [] with
  | inl results => Response.mk 200 (FeedsBody results)
  | inr e => Response.mk 500 (ErrorBody (JsError.message e))
  end.
End Handler.

(** * Notions used in the statements and in the proofs *)

(** What is left of [s] after its first [>]; nothing when it has none. *)
Fixpoint after_gt (s : jsstring) : jsstring :=
  match s with
  | [] => []
  | x :: t => if (x =? ch_gt)%N then t else after_gt t
  end.

(** Closed form of one attempt of [tag_regex]: it succeeds exactly on a [<]
    followed by a code unit other than [>], and reaches past the next [>] or
    to the end of the input. *)
Definition tag_rest (s : jsstring) : option jsstring :=
  match s with
  | c1 :: c2 :: t =>
      if ((c1 =? ch_lt) && negb (c2 =? ch_gt))%N then Some (after_gt t)
      else None
  | _ => None
  end.

(** An HTML tag marker inside [s]: a [<], one or more code units other than
    [>], and a [>]. *)
Definition has_tag_marker (s : jsstring) : Prop :=
  exists pre body post,
    s = pre ++ ch_lt :: body ++ ch_gt :: post /\
    body <> [] /\ ~ In ch_gt body.

Definition ends_with (s suffix : jsstring) : Prop :=
  exists pre, s = pre ++ suffix.

(** Every [<] of [s] is its last code unit or stands right before a [>]. *)
Fixpoint lt_closed (s : jsstring) : bool :=
  match s with
  | [] => true
  | c :: t =>
      (if (c =? ch_lt)%N
       then match t with [] => true | d :: _ => (d =? ch_gt)%N end
       else true) && lt_closed t
  end.

(** [lit_strip ic lit s] is what follows [lit] at the start of [s], the
    closed form of a run of pattern characters. *)
Fixpoint lit_strip (ic : bool) (lit s : jsstring) : option jsstring :=
  match lit with
  | [] => Some s
  | c :: lit' =>
      match s with
      | x :: t => if char_eqb ic c x then lit_strip ic lit' t else None
      | [] => None
      end
  end.

(** [word] is [lit] up to the case of its ASCII letters. *)
Definition ci_eq (lit word : jsstring) : Prop :=
  Forall2 (fun a x => char_eqb true a x = true) lit word.

Definition is_quote (c : codeunit) : Prop := c = ch_dquote \/ c = ch_squote.

(** [s] starts with an occurrence of the image pattern: the letters of
    [<img] and a space, a run [attrs] without [>], the letters of [src=],
    a quote, the non-empty quote-free [u], and a quote. *)
Definition img_src_at (s attrs u : jsstring) : Prop :=
  exists tag kw q1 q2 post,
    s = tag ++ attrs ++ kw ++ q1 :: u ++ q2 :: post /\
    ci_eq (js "<img ") tag /\ ci_eq (js "src=") kw /\
    ~ In ch_gt attrs /\ is_quote q1 /\ is_quote q2 /\
    u <> [] /\ (forall c, In c u -> ~ is_quote c).

(** The image pattern occurs somewhere in [s]. *)
Definition img_occurs (s : jsstring) : Prop :=
  exists pre s' attrs u, s = pre ++ s' /\ img_src_at s' attrs u.

(** The first of [candidates] that is a non-empty string, else [default]. *)
Fixpoint first_truthy (candidates : list (option jsstring)) (default : jsstring)
  : jsstring :=
  match candidates with
  | [] => default
  | Some (c :: s) :: _ => c :: s
  | _ :: rest => first_truthy rest default
  end.

(** The channel as the specification words it: the creator when the field
    is there, else the title of the feed when it is there, else the name of
    the source. *)
Definition channel_spec (feed : Feed.t) (parsed : Parsed.t) (item : Item.t)
  : jsstring :=
  match Item.creator item with
  | Some creator => creator
  | None =>
      match Parsed.title parsed with
      | Some title => title
      | None => Feed.name feed
      end
  end.

(** The description as the specification words it: the full content when
    the field is there, else the summary, else the description, else the
    empty string. *)
Definition desc_spec (item : Item.t) : jsstring :=
  match Item.contentEncoded item with
  | Some content => content
  | None =>
      match Item.contentSnippet item with
      | Some summary => summary
      | None =>
          match Item.description item with
          | Some description => description
          | None => []
          end
      end
  end.

(** * Sample inputs *)

Definition sample_item : Item.t :=
  {| Item.title := Some (js "Some Headline");
     Item.link := Some (js "https://example.org/post");
     Item.pubDate := Some (js "2025-06-17T10:55:19+00:00");
     Item.creator := Some (js "Ada");
     Item.contentEncoded :=
       Some (js "<p>Hello <b>world</b> <img src='https://example.org/a.png'></p>");
     Item.contentSnippet := Some (js "Hello world");
     Item.content_encoded :=
       Some (js "<p>Hello <b>world</b> <img src='https://example.org/a.png'></p>");
     Item.description := None;
     Item.categories := JsArray [JsString (js "Tech"); JsString (js "World")] |}.

Definition sample_parsed (n : nat) : Parsed.t :=
  {| Parsed.title := Some (js "Sample feed");
     Parsed.description := None;
     Parsed.image := None;
     Parsed.items := repeat sample_item n |}.

Definition feed_techcrunch : Feed.t :=
  Feed.mk (js "TechCrunch") (js "https://techcrunch.com/feed/").

Definition feed_wired : Feed.t :=
  Feed.mk (js "Wired") (js "https://www.wired.com/feed/rss").

(** Every source answers with twelve entries. *)
Definition all_fulfilled : jsstring -> Settled :=
  fun _ => Fulfilled (sample_parsed 12).

(** Wired is down, the other sources answer with three entries. *)
Definition wired_down : jsstring -> Settled :=
  fun url =>
    if jsstring_eqb url (Feed.url feed_wired)
    then Rejected (JsError.mk (js "Status code 503"))
    else Fulfilled (sample_parsed 3).

(** The entries of the image scenario: an image tag around [u], quoted by
    [q], and an entry with a full content and a summary. *)
Definition img_tag (q : codeunit) (u : jsstring) : jsstring :=
  js "<img src=" ++ q :: u ++ q :: js ">".

Definition entry_with (content summary : jsstring) : Item.t :=
  {| Item.title := None; Item.link := None; Item.pubDate := None;
     Item.creator := None;
     Item.contentEncoded := Some content;
     Item.contentSnippet := Some summary;
     Item.content_encoded := Some content;
     Item.description := None;
     Item.categories := JsUndefined |}.

Definition parsed_with_image (image : option jsstring) : Parsed.t :=
  {| Parsed.title := None; Parsed.description := None;
     Parsed.image := option_map (fun u => Image.mk (Some u)) image;
     Parsed.items := [] |}.

Definition url_A : jsstring := js "https://img.example/A.png".
Definition url_B : jsstring := js "https://img.example/B.png".
Definition url_C : jsstring := js "https://img.example/C.png".

(** An entry whose creator element is empty, in a feed with a title. *)
Definition empty_creator_item : Item.t :=
  {| Item.title := Some (js "Some Headline");
     Item.link := None; Item.pubDate := None;
     Item.creator := Some [];
     Item.contentEncoded := None; Item.contentSnippet := None;
     Item.content_encoded := None; Item.description := None;
     Item.categories := JsUndefined |}.

(** An entry whose full-content element is empty and whose summary is not. *)
Definition empty_content_item : Item.t :=
  {| Item.title := Some (js "Some Headline");
     Item.link := None; Item.pubDate := None;
     Item.creator := None;
     Item.contentEncoded := Some [];
     Item.contentSnippet := Some (js "A short description");
     Item.content_encoded := Some [];
     Item.description := None;
     Item.categories := JsUndefined |}.

(** The scenario of two sources: A answers with twelve entries, B with
    three. *)
Definition feed_A : Feed.t := Feed.mk (js "A") (js "https://a.example/rss").
Definition feed_B : Feed.t := Feed.mk (js "B") (js "https://b.example/rss").

Definition two_sources : jsstring -> Settled :=
  fun url =>
    if jsstring_eqb url (Feed.url feed_A)
    then Fulfilled (sample_parsed 12)
    else Fulfilled (sample_parsed 3).

(** * Further notions *)

(** [a] is [b] with some code units left out, the others in their order. *)
Inductive subseq : jsstring -> jsstring -> Prop :=
| subseq_nil : subseq [] []
| subseq_skip x a b : subseq a b -> subseq a (x :: b)
| subseq_keep x a b : subseq a b -> subseq (x :: a) (x :: b).

Definition ch_eq : codeunit := 61%N.     (* = *)
Definition ch_dot : codeunit := 46%N.    (* . *)

(** A second source of the name of [feed_A]. *)
Definition feed_A_again : Feed.t :=
  Feed.mk (js "A") (js "https://mirror.example/rss").

(** * The page that calls the handler (app/page.tsx) *)

(** The properties of an object in the order in which its keys are listed:
    the order in which JSON.stringify writes them and JSON.parse creates
    them again. *)
Definition own_entries {V : Type} (o : JsRecord V) : JsRecord V :=
  flat_map
    (fun k => match obj_get k o with Some v => [(k, v)] | None => [] end)
    (own_keys o).

(** JSON.parse of JSON.stringify, on a value that an array or a kept
    property holds: undefined becomes null, and a property whose value is
    undefined is left out. *)
Fixpoint json_value (v : JsVal) : JsVal :=
  match v with
  | JsUndefined => JsNull
  | JsArray elems => JsArray (List.map json_value elems)
  | JsObject props =>
      JsObject
        (own_entries
           ((fix kept (ps : list (jsstring * JsVal)) : list (jsstring * JsVal) :=
               match ps with
               | [] => []
               | (k, x) :: t =>
                   match x with
                   | JsUndefined => kept t
                   | _ => (k, json_value x) :: kept t
                   end
               end) props))
  | JsNull | JsBoolean _ | JsNumber _ | JsString _ => v
  end.

(** An article as the page receives it: strings stay, an undefined image
    stays absent, the categories go through JSON. *)
Definition received_item (a : FeedItem.t) : FeedItem.t :=
  {| FeedItem.title := FeedItem.title a;
     FeedItem.link := FeedItem.link a;
     FeedItem.pubDate := FeedItem.pubDate a;
     FeedItem.channel := FeedItem.channel a;
     FeedItem.contentSnippet := FeedItem.contentSnippet a;
     FeedItem.categories := List.map json_value (FeedItem.categories a);
     FeedItem.image := FeedItem.image a |}.

(** [data.feeds] for the [data] of [res.json()]: undefined for the body of
    an error. *)
Definition data_feeds (res : Response.t) : option FeedsResult :=
  match Response.body res with
  | FeedsBody results =>
      Some (List.map (fun kv => (fst kv, List.map received_item (snd kv)))
              (own_entries results))
  | ErrorBody _ => None
  end.

(** The state of the component [Home]. *)
Module Home.
Record t : Type := mk {
  feeds : FeedsResult;
  sources : list jsstring;
  selected : jsstring;
  loading : bool;
  sidebarOpen : bool
}.
End Home.

Definition Home_initial : Home.t :=
  {| Home.feeds := []; Home.sources := []; Home.selected := [];
     Home.loading := true; Home.sidebarOpen := false |}.

(** The callback that receives [data]: [setFeeds(data.feeds || {})],
    [setSources(Object.keys(...))], [setSelected(srcs[0] || "")] and
    [setLoading(false)]. [feeds_field] is the [data.feeds] of a response of
    the handler: absent for the body of an error, else a mapping from names
    to lists of articles. The callback is not modelled on other data. *)
Definition on_data (feeds_field : option FeedsResult) (st : Home.t) : Home.t :=
  let feeds := match feeds_field with Some f => f | None => [] end in
  let srcs := own_keys feeds in
  {| Home.feeds := feeds;
     Home.sources := srcs;
     Home.selected := js_or_string (hd_error srcs) [];
     Home.loading := false;
     Home.sidebarOpen := Home.sidebarOpen st |}.

(** The click on the tab of [src]: [setSelected(src)]. *)
Definition select (src : jsstring) (st : Home.t) : Home.t :=
  {| Home.feeds := Home.feeds st;
     Home.sources := Home.sources st;
     Home.selected := src;
     Home.loading := Home.loading st;
     Home.sidebarOpen := Home.sidebarOpen st |}.

(** The articles of the cards, [feeds[selected] || []]; an array is truthy
    even when it is empty. The selection is the empty string or the key of
    a tab, so that only the object's own properties are looked up. *)
Definition cards (st : Home.t) : list FeedItem.t :=
  match obj_get (Home.selected st) (Home.feeds st) with
  | Some arts => arts
  | None => []
  end.

(** The state that the callback sets once the answer to the request has
    arrived. The render that follows is not part of it. *)
Definition page_after (parseURL : jsstring -> Settled) : Home.t :=
  on_data (data_feeds (GET parseURL)) Home_initial.

(** * The handler on every output of the parser

    The handler reads the fields of an entry through casts to [any]: at run
    time a field holds whatever the parser put there. A field that is an
    object where the code calls [html.match] makes the callback throw a
    TypeError, which the catch of [GET] turns into the response 500. The
    definitions of this part follow the source over arbitrary values; on
    values that respect the parser's types they are the definitions
    above. *)

(** ToBoolean. *)
Definition to_boolean (v : JsVal) : bool :=
  match v with
  | JsUndefined | JsNull => false
  | JsBoolean b => b
  | JsNumber n => negb (n =? 0)%N
  | JsString [] => false
  | JsString (_ :: _) => true
  | JsArray _ | JsObject _ => true
  end.

(** [a || b] *)
Definition val_or (a b : JsVal) : JsVal := if to_boolean a then a else b.

(** [a ?? b] *)
Definition val_nullish (a b : JsVal) : JsVal :=
  match a with
  | JsUndefined | JsNull => b
  | _ => a
  end.

(** [image?.url]: undefined for undefined and null, the property [url] of
    an object, and undefined for a value that has no such property. *)
Definition optional_url (image : JsVal) : JsVal :=
  match image with
  | JsObject props =>
      match obj_get (js "url") props with
      | Some v => v
      | None => JsUndefined
      end
  | _ => JsUndefined
  end.

Module RawItem.
Record t : Type := mk {
  title : JsVal;
  link : JsVal;
  pubDate : JsVal;
  creator : JsVal;
  contentEncoded : JsVal;
  contentSnippet : JsVal;
  content_encoded : JsVal;
  description : JsVal;
  categories : JsVal
}.
End RawItem.

Module RawParsed.
Record t : Type := mk {
  title : JsVal;
  description : JsVal;
  image : JsVal;
  items : list RawItem.t
}.
End RawParsed.

(** The object that the callback returns. [contentSnippet] is a string and
    [categories] an array by construction; the other properties hold what
    the operators let through. *)
Module RawFeedItem.
Record t : Type := mk {
  title : JsVal;
  link : JsVal;
  pubDate : JsVal;
  channel : JsVal;
  contentSnippet : jsstring;
  categories : list JsVal;
  image : JsVal
}.
End RawFeedItem.

(** The TypeError of a call of [html.match] on a value that has no such
    method, with the message that V8 gives it. *)
Definition match_type_error : JsError.t :=
  JsError.mk (js "html.match is not a function").

Definition replace_type_error : JsError.t :=
  JsError.mk (js "desc.replace is not a function").

Definition val_of (s : option jsstring) : JsVal :=
  match s with
  | Some s => JsString s
  | None => JsUndefined
  end.

(** [extractImage] called on any value: [!html] returns undefined for a
    falsy value; a string is matched; every other truthy value has no
    method [match], and the call throws. *)
Definition extractImage_any (html : JsVal) : JsVal + JsError.t :=
  if to_boolean html then
    match html with
    | JsString s => inl (val_of (extractImage (Some s)))
    | _ => inr match_type_error
    end
  else inl JsUndefined.

(** [parsed.image?.url || extractImage(parsed.description)]; the call is
    not made when the URL is truthy. *)
Definition channelImage_raw (parsed : RawParsed.t) : JsVal + JsError.t :=
  if to_boolean (optional_url (RawParsed.image parsed))
  then inl (optional_url (RawParsed.image parsed))
  else extractImage_any (RawParsed.description parsed).

Definition desc_raw (item : RawItem.t) : JsVal :=
  val_or
    (val_or
       (val_or
          (val_or (RawItem.contentEncoded item) (RawItem.contentSnippet item))
          (RawItem.content_encoded item))
       (RawItem.description item))
    (JsString []).

Definition categories_raw (item : RawItem.t) : list JsVal :=
  match RawItem.categories item with
  | JsArray elems => elems
  | JsString s => [JsString s]
  | _ => []
  end.

(** [extractImage(desc) || extractImage(item.contentSnippet) ||
    channelImage]: the second call is made only when the first result is
    falsy. *)
Definition img_raw (channel_image : JsVal) (item : RawItem.t)
  : JsVal + JsError.t :=
  match extractImage_any (desc_raw item) with
  | inr e => inr e
  | inl a =>
      if to_boolean a then inl (val_or a channel_image)
      else
        match extractImage_any (RawItem.contentSnippet item) with
        | inr e => inr e
        | inl b => inl (val_or (val_or a b) channel_image)
        end
  end.

(** The callback, in the order in which the source evaluates it: [desc],
    [categories], [img], then the properties of the object. *)
Definition build_raw (feed : Feed.t) (parsed : RawParsed.t)
  (channel_image : JsVal) (item : RawItem.t) : RawFeedItem.t + JsError.t :=
  match img_raw channel_image item with
  | inr e => inr e
  | inl image =>
      match desc_raw item with
      | JsString text =>
          inl {| RawFeedItem.title :=
                   val_nullish (RawItem.title item) (JsString []);
                 RawFeedItem.link :=
                   val_nullish (RawItem.link item) (JsString []);
                 RawFeedItem.pubDate :=
                   val_nullish (RawItem.pubDate item) (JsString []);
                 RawFeedItem.channel :=
                   val_or
                     (val_or (RawItem.creator item) (RawParsed.title parsed))
                     (JsString (Feed.name feed));
                 RawFeedItem.contentSnippet := snippet_of text;
                 RawFeedItem.categories := categories_raw item;
                 RawFeedItem.image := image |}
      | _ => inr replace_type_error
      end
  end.

(** [items.map(callback)]: the entries in their order, up to the first one
    on which the callback throws. *)
Fixpoint map_or_throw {A B : Type} (f : A -> B + JsError.t) (l : list A)
  : list B + JsError.t :=
  match l with
  | [] => inl []
  | x :: t =>
      match f x with
      | inr e => inr e
      | inl y =>
          match map_or_throw f t with
          | inr e => inr e
          | inl ys => inl (y :: ys)
          end
      end
  end.

Inductive RawSettled : Type :=
| RawFulfilled (parsed : RawParsed.t)
| RawRejected (e : JsError.t).

Inductive RawBody : Type :=
| RawFeedsBody (feeds : JsRecord (list RawFeedItem.t))
| RawErrorBody (error : jsstring).

Module RawResponse.
Record t : Type := mk { status : nat; body : RawBody }.
End RawResponse.

Section RawHandler.
Variable parseURL : jsstring -> RawSettled.

(** What one turn of the loop computes for a fulfilled source. *)
Definition articles_raw (feed : Feed.t) (parsed : RawParsed.t)
  : list RawFeedItem.t + JsError.t :=
  match channelImage_raw parsed with
  | inr e => inr e
  | inl channel_image =>
      map_or_throw (build_raw feed parsed channel_image)
        (firstn 10 (RawParsed.items parsed))
  end.

Fixpoint aggregate_raw (feeds : list Feed.t)
  (results : JsRecord (list RawFeedItem.t))
  : JsRecord (list RawFeedItem.t) + JsError.t :=
  match feeds with
  | [] => inl results
  | feed :: rest =>
      match parseURL (Feed.url feed) with
      | RawRejected e => inr e
      | RawFulfilled parsed =>
          match articles_raw feed parsed with
          | inr e => inr e
          | inl arts =>
              aggregate_raw rest (obj_assign (Feed.name feed) arts results)
          end
      end
  end.

(** The whole of [GET]: the try around the loop, and the catch. *)
Definition GET_raw : RawResponse.t :=
  match aggregate_raw FEEDS [] with
  | inl results => RawResponse.mk 200 (RawFeedsBody results)
  | inr e => RawResponse.mk 500 (RawErrorBody (JsError.message e))
  end.
End RawHandler.

(** ** From the typed records to the values *)

Definition raw_item (item : Item.t) : RawItem.t :=
  {| RawItem.title := val_of (Item.title item);
     RawItem.link := val_of (Item.link item);
     RawItem.pubDate := val_of (Item.pubDate item);
     RawItem.creator := val_of (Item.creator item);
     RawItem.contentEncoded := val_of (Item.contentEncoded item);
     RawItem.contentSnippet := val_of (Item.contentSnippet item);
     RawItem.content_encoded := val_of (Item.content_encoded item);
     RawItem.description := val_of (Item.description item);
     RawItem.categories := Item.categories item |}.

Definition raw_image (image : option Image.t) : JsVal :=
  match image with
  | Some im => JsObject [(js "url", val_of (Image.url im))]
  | None => JsUndefined
  end.

Definition raw_parsed (parsed : Parsed.t) : RawParsed.t :=
  {| RawParsed.title := val_of (Parsed.title parsed);
     RawParsed.description := val_of (Parsed.description parsed);
     RawParsed.image := raw_image (Parsed.image parsed);
     RawParsed.items := List.map raw_item (Parsed.items parsed) |}.

Definition raw_feed_item (a : FeedItem.t) : RawFeedItem.t :=
  {| RawFeedItem.title := JsString (FeedItem.title a);
     RawFeedItem.link := JsString (FeedItem.link a);
     RawFeedItem.pubDate := JsString (FeedItem.pubDate a);
     RawFeedItem.channel := JsString (FeedItem.channel a);
     RawFeedItem.contentSnippet := FeedItem.contentSnippet a;
     RawFeedItem.categories := FeedItem.categories a;
     RawFeedItem.image := val_of (FeedItem.image a) |}.

Definition raw_settled (s : Settled) : RawSettled :=
  match s with
  | Fulfilled parsed => RawFulfilled (raw_parsed parsed)
  | Rejected e => RawRejected e
  end.

Definition raw_results (results : FeedsResult)
  : JsRecord (list RawFeedItem.t) :=
  List.map (fun kv => (fst kv, List.map raw_feed_item (snd kv))) results.

Definition raw_response (res : Response.t) : RawResponse.t :=
  match Response.body res with
  | FeedsBody results =>
      RawResponse.mk (Response.status res) (RawFeedsBody (raw_results results))
  | ErrorBody error =>
      RawResponse.mk (Response.status res) (RawErrorBody error)
  end.

(** A feed as the parser gives it for an entry whose [content:encoded]
    element has an attribute: the element arrives as an object. *)
Definition attribute_item : RawItem.t :=
  {| RawItem.title := JsString (js "Some Headline");
     RawItem.link := JsString (js "https://example.org/post");
     RawItem.pubDate := JsUndefined;
     RawItem.creator := JsUndefined;
     RawItem.contentEncoded :=
       JsObject [(js "$", JsObject [(js "type", JsString (js "html"))])];
     RawItem.contentSnippet := JsUndefined;
     RawItem.content_encoded :=
       JsObject [(js "$", JsObject [(js "type", JsString (js "html"))])];
     RawItem.description := JsUndefined;
     RawItem.categories := JsUndefined |}.

Definition attribute_parsed : RawParsed.t :=
  {| RawParsed.title := JsString (js "Sample feed");
     RawParsed.description := JsUndefined;
     RawParsed.image := JsUndefined;
     RawParsed.items := [attribute_item] |}.

(** Every fetch is fulfilled; the feed of Wired holds the entry above. *)
Definition wired_attribute : jsstring -> RawSettled :=
  fun url =>
    if jsstring_eqb url (Feed.url feed_wired)
    then RawFulfilled attribute_parsed
    else RawFulfilled (raw_parsed (sample_parsed 3)).

(** A value on which a call of a string method throws: truthy, and not a
    string. *)
Definition truthy_non_string (v : JsVal) : bool :=
  match v with
  | JsString _ => false
  | _ => to_boolean v
  end.

(** The typed answers of the network, as values. *)
Definition raw_oracle (parseURL : jsstring -> Settled) : jsstring -> RawSettled :=
  fun url => raw_settled (parseURL url).

(** The turn of the loop for [f] ends without an exception: the fetch is
    fulfilled and no call of the turn throws. *)
Definition turn_succeeds (parseURL : jsstring -> RawSettled) (f : Feed.t)
  : Prop :=
  exists parsed arts,
    parseURL (Feed.url f) = RawFulfilled parsed /\
    articles_raw f parsed = inl arts.
(** * Properties of the matchers *)

Lemma jsstring_eqb_eq (a b : jsstring) : jsstring_eqb a b = true <-> a = b.
Proof.
  unfold jsstring_eqb. destruct (list_eq_dec N.eq_dec a b); split; congruence.
Qed.

(** ** A greedy repetition takes the longest run that lets the rest match *)

Lemma star_match_none ic c k a s' :
  star_match ic c k (a ++ s') = None ->
  Forall (fun x => cset_match ic c x = true) a -> k s' = None.
Proof.
  induction a as [|x a IH]; simpl; intros H Fa.
  - destruct s' as [|w s']; simpl in H; auto.
    destruct (cset_match ic c w); auto.
    destruct (star_match ic c k s'); auto; discriminate.
  - apply Forall_cons_iff in Fa. destruct Fa as [Hx Fa]. rewrite Hx in H.
    destruct (star_match ic c k (a ++ s')) eqn:Hs; [discriminate|]. auto.
Qed.

Lemma star_match_some ic c k s r :
  star_match ic c k s = Some r ->
  exists a s', s = a ++ s' /\ Forall (fun x => cset_match ic c x = true) a /\
    k s' = Some r /\
    (forall a' s'', s = a' ++ s'' ->
       Forall (fun x => cset_match ic c x = true) a' ->
       length a < length a' -> k s'' = None).
Proof.
  revert r. induction s as [|x t IH]; intros r H; simpl in H.
  - exists [], []. repeat split; auto.
    intros a' s'' E _ L. destruct a'; simpl in *; [lia | discriminate].
  - destruct (cset_match ic c x) eqn:Hx.
    + destruct (star_match ic c k t) as [r'|] eqn:Ht.
      * inversion H; subst r'.
        destruct (IH r eq_refl) as (a & s' & E & Fa & Hk & Hmax).
        exists (x :: a), s'. subst t. repeat split; auto.
        intros a' s'' E' Fa' L. destruct a' as [|y a']; simpl in *; [lia|].
        injection E' as Ey Et. apply Forall_cons_iff in Fa'.
        eapply Hmax; [exact Et | tauto | lia].
      * exists [], (x :: t). repeat split; auto.
        intros a' s'' E' Fa' L. destruct a' as [|y a']; simpl in *; [lia|].
        injection E' as Ey Et. apply Forall_cons_iff in Fa'. subst t.
        eapply star_match_none; [exact Ht | tauto].
    + exists [], (x :: t). repeat split; auto.
      intros a' s'' E' Fa' L. destruct a' as [|y a']; simpl in *; [lia|].
      injection E' as Ey Et. apply Forall_cons_iff in Fa'. subst y. 
      destruct Fa' as [Hy _]. congruence.
Qed.

Lemma star_match_intro ic c k a s' r :
  Forall (fun x => cset_match ic c x = true) a ->
  k s' = Some r ->
  exists r', star_match ic c k (a ++ s') = Some r'.
Proof.
  intros Fa Hk. destruct (star_match ic c k (a ++ s')) as [r'|] eqn:E.
  - eauto.
  - rewrite (star_match_none _ _ _ _ _ E Fa) in Hk. discriminate.
Qed.

(** ** One attempt of the tag pattern *)

#[local] Arguments char_eqb : simpl never.
#[local] Arguments N.eqb : simpl never.

Lemma char_eqb_false_eq a b : char_eqb false a b = (a =? b)%N.
Proof. reflexivity. Qed.

Lemma tag_close_star cap t :
  exists cp,
    star_match false (CNoneOf [ch_gt])
      (fun s' => rmatch false tag_close accept s' cap) t
    = Some (after_gt t, cp).
Proof.
  induction t as [|x t [cp IH]].
  - eexists. reflexivity.
  - cbn [star_match cset_match existsb after_gt].
    rewrite char_eqb_false_eq, orb_false_r, N.eqb_sym.
    destruct (x =? ch_gt)%N eqn:E; cbn [negb].
    + apply N.eqb_eq in E. subst x. eexists. reflexivity.
    + rewrite IH. eauto.
Qed.

Lemma tag_body_match cap s :
  option_map fst (rmatch false tag_body accept s cap) =
  match s with
  | c :: t => if (c =? ch_gt)%N then None else Some (after_gt t)
  | [] => None
  end.
Proof.
  destruct s as [|c t]; [reflexivity|].
  change (rmatch false tag_body accept (c :: t) cap)
    with (if cset_match false (CNoneOf [ch_gt]) c
          then star_match false (CNoneOf [ch_gt])
                 (fun s' => rmatch false tag_close accept s' cap) t
          else None).
  cbn [cset_match existsb].
  rewrite char_eqb_false_eq, orb_false_r, N.eqb_sym.
  destruct (c =? ch_gt)%N; cbn [negb]; [reflexivity|].
  destruct (tag_close_star cap t) as [cp Hcp]. rewrite Hcp. reflexivity.
Qed.

Lemma match_at_tag s :
  option_map fst (match_at false tag_regex s) = tag_rest s.
Proof.
  destruct s as [|c1 [|c2 t]]; [reflexivity | |].
  - unfold match_at. cbn. destruct (char_eqb false ch_lt c1); reflexivity.
  - change (match_at false tag_regex (c1 :: c2 :: t))
      with (if cset_match false (CChar ch_lt) c1
            then
              if cset_match false (CChar ch_slash) c2
              then match rmatch false tag_body accept t None with
                   | Some res => Some res
                   | None => rmatch false tag_body accept (c2 :: t) None
                   end
              else rmatch false tag_body accept (c2 :: t) None
            else None).
    cbn [cset_match tag_rest].
    rewrite !char_eqb_false_eq, (N.eqb_sym ch_lt c1).
    destruct (c1 =? ch_lt)%N; [|reflexivity]. cbn [andb].
    rewrite char_eqb_false_eq.
    pose proof (tag_body_match None (c2 :: t)) as H2.
    pose proof (tag_body_match None t) as H1.
    destruct (ch_slash =? c2)%N eqn:Esl.
    + apply N.eqb_eq in Esl. subst c2.
      change (ch_slash =? ch_gt)%N with false in *. cbn [negb].
      destruct (rmatch false tag_body accept t None) as [r|].
      * destruct t as [|c3 t]; [discriminate H1|].
        cbn [after_gt]. destruct (c3 =? ch_gt)%N; [discriminate H1 | exact H1].
      * exact H2.
    + rewrite H2. destruct (c2 =? ch_gt)%N; reflexivity.
Qed.

(** ** Removing the tags *)

Lemma after_gt_suffix t : exists m, t = m ++ after_gt t.
Proof.
  induction t as [|x t [m IH]]; [exists []; reflexivity|].
  simpl. destruct (x =? ch_gt)%N.
  - exists [x]. reflexivity.
  - exists (x :: m). simpl. congruence.
Qed.

Lemma after_gt_length t : length (after_gt t) <= length t.
Proof.
  destruct (after_gt_suffix t) as [m E]. rewrite E at 2.
  rewrite length_app. lia.
Qed.

Lemma replace_from_skip ic r pre rest :
  replace_from ic r (length pre) (pre ++ rest) = replace_from ic r 0 rest.
Proof.
  induction pre as [|c pre IH]; [reflexivity|].
  simpl. exact IH.
Qed.

(** The loop of [replace], unfolded for the tag pattern. *)
Lemma strip_tags_eq s :
  strip_tags s =
  match s with
  | [] => []
  | c :: t =>
      match tag_rest s with
      | Some rest => strip_tags rest
      | None => c :: strip_tags t
      end
  end.
Proof.
  destruct s as [|c t]; [reflexivity|].
  unfold strip_tags, replace_all.
  cbn [replace_from].
  pose proof (match_at_tag (c :: t)) as H.
  destruct (match_at false tag_regex (c :: t)) as [[rest cap]|].
  - cbn [option_map fst] in H. rewrite <- H.
    destruct t as [|c2 t]; [discriminate H|].
    cbn [tag_rest] in H.
    destruct ((c =? ch_lt) && negb (c2 =? ch_gt))%N; [|discriminate H].
    injection H as H. subst rest.
    destruct (after_gt_suffix t) as [m E].
    assert (L : length (c :: c2 :: t) - length (after_gt t) = S (length (c2 :: m))).
    { rewrite E at 1. cbn [length]. rewrite length_app. lia. }
    rewrite L.
    replace (c2 :: t) with ((c2 :: m) ++ after_gt t) by (simpl; congruence).
    apply replace_from_skip.
  - cbn [option_map] in H. rewrite <- H. reflexivity.
Qed.

Lemma tag_rest_length s rest : tag_rest s = Some rest -> length rest < length s.
Proof.
  destruct s as [|c1 [|c2 t]]; try discriminate. cbn [tag_rest].
  destruct ((c1 =? ch_lt) && negb (c2 =? ch_gt))%N; [|discriminate].
  intros H. injection H as H. subst rest.
  pose proof (after_gt_length t). simpl. lia.
Qed.

Lemma strip_tags_lt_closed s : lt_closed (strip_tags s) = true.
Proof.
  remember (length s) as n eqn:Hn. revert s Hn.
  induction n as [n IH] using lt_wf_ind. intros s Hn.
  rewrite strip_tags_eq. destruct s as [|c t]; [reflexivity|].
  destruct (tag_rest (c :: t)) as [rest|] eqn:E.
  - apply tag_rest_length in E as L.
    apply (IH (length rest)); [lia | reflexivity].
  - cbn [lt_closed]. apply andb_true_iff. split.
    + destruct (c =? ch_lt)%N eqn:Ec; [|reflexivity].
      destruct t as [|c2 t]; [reflexivity|].
      cbn [tag_rest] in E. rewrite Ec in E. cbn [andb] in E.
      destruct (c2 =? ch_gt)%N eqn:E2; [|discriminate E].
      rewrite strip_tags_eq. cbn [tag_rest].
      apply N.eqb_eq in E2. subst c2.
      destruct t as [|c3 t]; [reflexivity|].
      change (ch_gt =? ch_lt)%N with false. cbn [andb]. reflexivity.
    + apply (IH (length t)); [simpl in Hn; lia | reflexivity].
Qed.

Lemma lt_closed_firstn n s : lt_closed s = true -> lt_closed (firstn n s) = true.
Proof.
  revert s. induction n as [|n IH]; intros s H; [reflexivity|].
  destruct s as [|c t]; [reflexivity|].
  cbn [firstn lt_closed] in *. apply andb_true_iff in H. destruct H as [H1 H2].
  apply andb_true_iff. split; [|auto].
  destruct (c =? ch_lt)%N; [|reflexivity].
  destruct t as [|d t]; [destruct n; reflexivity|].
  destruct n; [reflexivity | exact H1].
Qed.

Lemma lt_closed_no_tag o tail :
  lt_closed o = true -> ~ In ch_gt tail -> ~ In ch_lt tail ->
  ~ has_tag_marker (o ++ tail).
Proof.
  intros Ho Hgt Hlt. induction o as [|c o IH]; intros (pre & body & post & E & Hb & Hnb).
  - apply Hlt. simpl in E. rewrite E. apply in_or_app. right. left. reflexivity.
  - cbn [lt_closed] in Ho. apply andb_true_iff in Ho. destruct Ho as [Hc Ho].
    destruct pre as [|p pre].
    + simpl in E. injection E as Ec E. subst c.
      change (ch_lt =? ch_lt)%N with true in Hc.
      destruct body as [|b body]; [congruence|].
      destruct o as [|d o].
      * apply Hgt. simpl in E. rewrite E. right. apply in_or_app. right. left. reflexivity.
      * simpl in E. injection E as Ed E. apply N.eqb_eq in Hc.
        apply Hnb. left. congruence.
    + simpl in E. injection E as Ec E.
      apply (IH Ho). exists pre, body, post. auto.
Qed.

Lemma snippet_of_shape text :
  ~ has_tag_marker (snippet_of text) /\
  length (snippet_of text) <= 228 /\
  ends_with (snippet_of text) (js "...") /\
  (length (strip_tags text) <= 225 ->
   snippet_of text = strip_tags text ++ js "...").
Proof.
  unfold snippet_of. repeat split.
  - apply lt_closed_no_tag.
    + apply lt_closed_firstn, strip_tags_lt_closed.
    + vm_compute. intuition discriminate.
    + vm_compute. intuition discriminate.
  - rewrite length_app. pose proof (firstn_le_length 225 (strip_tags text)).
    change (length ellipsis) with 3. lia.
  - exists (firstn 225 (strip_tags text)). reflexivity.
  - intros L. rewrite firstn_all2 by exact L. reflexivity.
Qed.

(** ** The image pattern *)

Lemma char_eqb_true_low c x : (c < 65)%N -> char_eqb true c x = (c =? x)%N.
Proof.
  intros Hc. unfold char_eqb, canonicalize. cbn [andb].
  replace (97 <=? c)%N with false by (symmetry; apply N.leb_gt; lia).
  cbn [andb].
  destruct (97 <=? x)%N eqn:E1; cbn [andb]; [|reflexivity].
  destruct (x <=? 122)%N eqn:E2; [|reflexivity].
  apply N.leb_le in E1, E2.
  destruct (N.eqb_spec c (x - 32)); destruct (N.eqb_spec c x); try reflexivity; lia.
Qed.

Lemma not_gt_match x :
  cset_match true (CNoneOf [ch_gt]) x = negb (x =? ch_gt)%N.
Proof.
  cbn [cset_match existsb]. rewrite orb_false_r, char_eqb_true_low, N.eqb_sym.
  - reflexivity.
  - reflexivity.
Qed.

Lemma quote_match x :
  cset_match true (COneOf quotes) x = true <-> is_quote x.
Proof.
  unfold quotes, is_quote. cbn [cset_match existsb].
  rewrite orb_false_r, !char_eqb_true_low by reflexivity.
  rewrite orb_true_iff, !N.eqb_eq. intuition congruence.
Qed.

Lemma nonquote_match x :
  cset_match true (CNoneOf quotes) x = true <-> ~ is_quote x.
Proof.
  change (cset_match true (CNoneOf quotes) x)
    with (negb (cset_match true (COneOf quotes) x)).
  rewrite negb_true_iff, <- quote_match.
  destruct (cset_match true (COneOf quotes) x); intuition congruence.
Qed.

Lemma Forall_not_gt a :
  Forall (fun x => cset_match true (CNoneOf [ch_gt]) x = true) a <->
  ~ In ch_gt a.
Proof.
  rewrite Forall_forall. split.
  - intros H Hin. specialize (H _ Hin). rewrite not_gt_match in H.
    discriminate H.
  - intros H x Hin. rewrite not_gt_match.
    destruct (N.eqb_spec x ch_gt); [subst x; contradiction | reflexivity].
Qed.

Lemma Forall_nonquote u :
  Forall (fun x => cset_match true (CNoneOf quotes) x = true) u <->
  (forall c, In c u -> ~ is_quote c).
Proof.
  rewrite Forall_forall. split; intros H x Hin; apply nonquote_match; auto.
Qed.

Lemma rmatch_RLit ic lit r k s cap :
  rmatch ic (RLit lit r) k s cap =
  match lit_strip ic lit s with
  | Some s' => rmatch ic r k s' cap
  | None => None
  end.
Proof.
  revert s. induction lit as [|c lit IH]; intros s; [reflexivity|].
  cbn [RLit lit_strip rmatch cset_match]. destruct s as [|x t]; [reflexivity|].
  destruct (char_eqb ic c x); [apply IH | reflexivity].
Qed.

Lemma lit_strip_some ic lit s s' :
  lit_strip ic lit s = Some s' <->
  exists m, s = m ++ s' /\ Forall2 (fun a x => char_eqb ic a x = true) lit m.
Proof.
  revert s. induction lit as [|c lit IH]; intros s; cbn [lit_strip].
  - split.
    + intros H. injection H as H. subst s'. exists []. split; [reflexivity | constructor].
    + intros (m & E & F). inversion F; subst. reflexivity.
  - destruct s as [|x t].
    + split; [discriminate|]. intros (m & E & F). inversion F; subst. discriminate E.
    + split.
      * destruct (char_eqb ic c x) eqn:Ec; [|discriminate].
        intros H. apply IH in H. destruct H as (m & E & F).
        exists (x :: m). split; [simpl; congruence | constructor; assumption].
      * intros (m & E & F). inversion F as [|a y l l' Hay Fl]; subst.
        simpl in E. injection E as Ex E. subst y. rewrite Hay.
        apply IH. exists l'. auto.
Qed.

Lemma firstn_consumed (u v : jsstring) :
  firstn (length (u ++ v) - length v) (u ++ v) = u.
Proof.
  rewrite length_app. replace (length u + length v - length v) with (length u) by lia.
  rewrite firstn_app, Nat.sub_diag, firstn_all. simpl. apply app_nil_r.
Qed.

Lemma quoted_match_unfold s cap :
  rmatch true img_quoted accept s cap =
  match s with
  | q1 :: t =>
      if cset_match true (COneOf quotes) q1 then
        match t with
        | x :: t' =>
            if cset_match true (CNoneOf quotes) x then
              star_match true (CNoneOf quotes)
                (fun s' =>
                   rmatch true (RSet (COneOf quotes)) accept s'
                     (Some (firstn (length t - length s') t))) t'
            else None
        | [] => None
        end
      else None
  | [] => None
  end.
Proof.
  destruct s as [|q1 [|x t']]; reflexivity.
Qed.

Lemma quoted_match_some cap s rest c :
  rmatch true img_quoted accept s cap = Some (rest, c) ->
  exists q1 u q2,
    s = q1 :: u ++ q2 :: rest /\ is_quote q1 /\ is_quote q2 /\
    u <> [] /\ (forall x, In x u -> ~ is_quote x) /\ c = Some u.
Proof.
  rewrite quoted_match_unfold.
  destruct s as [|q1 t]; [discriminate|].
  destruct (cset_match true (COneOf quotes) q1) eqn:Hq1; [|discriminate].
  destruct t as [|x t']; [discriminate|].
  destruct (cset_match true (CNoneOf quotes) x) eqn:Hx; [|discriminate].
  intros H. apply star_match_some in H.
  destruct H as (a & s' & E & Fa & Hk & _).
  cbn [rmatch] in Hk. destruct s' as [|q2 rest']; [discriminate Hk|].
  destruct (cset_match true (COneOf quotes) q2) eqn:Hq2; [|discriminate Hk].
  unfold accept in Hk. injection Hk as Hr Hc. subst rest' t'.
  exists q1, (x :: a), q2. repeat split.
  - apply quote_match; assumption.
  - apply quote_match; assumption.
  - discriminate.
  - apply Forall_nonquote. constructor; assumption.
  - rewrite <- Hc. f_equal.
    exact (firstn_consumed (x :: a) (q2 :: rest)).
Qed.

Lemma quoted_match_intro cap q1 u q2 post :
  is_quote q1 -> is_quote q2 -> u <> [] ->
  (forall x, In x u -> ~ is_quote x) ->
  exists r, rmatch true img_quoted accept (q1 :: u ++ q2 :: post) cap = Some r.
Proof.
  intros Hq1 Hq2 Hu Hnq. rewrite quoted_match_unfold.
  apply quote_match in Hq1. rewrite Hq1.
  destruct u as [|x a]; [congruence|].
  apply Forall_nonquote in Hnq. apply Forall_cons_iff in Hnq.
  destruct Hnq as [Hx Ha]. cbn [app]. rewrite Hx.
  eapply star_match_intro; [exact Ha|].
  cbn [rmatch]. apply quote_match in Hq2. rewrite Hq2. reflexivity.
Qed.

Lemma src_match_some s rest c :
  rmatch true img_src accept s None = Some (rest, c) ->
  exists kw q1 u q2,
    s = kw ++ q1 :: u ++ q2 :: rest /\ ci_eq (js "src=") kw /\
    is_quote q1 /\ is_quote q2 /\ u <> [] /\
    (forall x, In x u -> ~ is_quote x) /\ c = Some u.
Proof.
  unfold img_src. rewrite rmatch_RLit.
  destruct (lit_strip true (js "src=") s) as [s1|] eqn:E; [|discriminate].
  apply lit_strip_some in E. destruct E as (kw & E & F).
  intros H. apply quoted_match_some in H.
  destruct H as (q1 & u & q2 & E1 & H).
  exists kw, q1, u, q2. split; [congruence | split; [exact F | exact H]].
Qed.

Lemma src_match_intro kw q1 u q2 post :
  ci_eq (js "src=") kw -> is_quote q1 -> is_quote q2 -> u <> [] ->
  (forall x, In x u -> ~ is_quote x) ->
  exists r,
    rmatch true img_src accept (kw ++ q1 :: u ++ q2 :: post) None = Some r.
Proof.
  intros F Hq1 Hq2 Hu Hnq. unfold img_src. rewrite rmatch_RLit.
  assert (E : lit_strip true (js "src=") (kw ++ q1 :: u ++ q2 :: post)
              = Some (q1 :: u ++ q2 :: post)).
  { apply lit_strip_some. exists kw. auto. }
  rewrite E. apply quoted_match_intro; assumption.
Qed.

Lemma match_at_img_unfold s :
  match_at true img_regex s =
  match lit_strip true (js "<img ") s with
  | Some s1 =>
      star_match true (CNoneOf [ch_gt])
        (fun s' => rmatch true img_src accept s' None) s1
  | None => None
  end.
Proof. unfold match_at, img_regex. rewrite rmatch_RLit. reflexivity. Qed.

Lemma ci_eq_length lit w : ci_eq lit w -> length w = length lit.
Proof. intros F. symmetry. exact (Forall2_length F). Qed.

Lemma app_same_length (a b c d : jsstring) :
  a ++ b = c ++ d -> length a = length c -> a = c /\ b = d.
Proof.
  revert c. induction a as [|x a IH]; intros [|y c] E L; simpl in *;
    try discriminate; auto.
  injection E as Ex E. injection L as L.
  destruct (IH c E L). split; congruence.
Qed.

(** One attempt of the image pattern finds an occurrence at the start of the
    input, the one with the longest attribute run, and captures its URL. *)
Lemma match_at_img_some s rest c :
  match_at true img_regex s = Some (rest, c) ->
  exists attrs u,
    c = Some u /\ img_src_at s attrs u /\
    (forall a' u', img_src_at s a' u' -> length a' <= length attrs).
Proof.
  rewrite match_at_img_unfold.
  destruct (lit_strip true (js "<img ") s) as [s1|] eqn:E; [|discriminate].
  apply lit_strip_some in E. destruct E as (tag & E & Ftag).
  intros H. apply star_match_some in H.
  destruct H as (attrs & s' & E1 & Fa & Hk & Hmax).
  apply src_match_some in Hk.
  destruct Hk as (kw & q1 & u & q2 & E2 & Fkw & Hq1 & Hq2 & Hu & Hnq & Hc).
  exists attrs, u. split; [exact Hc|]. split.
  - exists tag, kw, q1, q2, rest. subst s s1 s'.
    apply Forall_not_gt in Fa. repeat split; auto.
  - intros a' u' (tag' & kw' & q1' & q2' & post' & E' & Ftag' & Fkw' & Ha' & Hq1' & Hq2' & Hu' & Hnq').
    destruct (le_lt_dec (length a') (length attrs)) as [L|L]; [exact L|].
    exfalso. subst s.
    apply app_same_length in E'.
    2:{ rewrite (ci_eq_length _ _ Ftag), (ci_eq_length _ _ Ftag'). reflexivity. }
    destruct E' as [_ E']. apply Forall_not_gt in Ha'.
    specialize (Hmax a' _ E' Ha' L).
    destruct (src_match_intro _ _ _ _ post' Fkw' Hq1' Hq2' Hu' Hnq') as [r Hr].
    congruence.
Qed.

Lemma match_at_img_none s attrs u :
  match_at true img_regex s = None -> ~ img_src_at s attrs u.
Proof.
  rewrite match_at_img_unfold.
  intros H (tag & kw & q1 & q2 & post & E & Ftag & Fkw & Ha & Hq1 & Hq2 & Hu & Hnq).
  assert (E1 : lit_strip true (js "<img ") s
               = Some (attrs ++ kw ++ q1 :: u ++ q2 :: post)).
  { apply lit_strip_some. exists tag. auto. }
  rewrite E1 in H. apply Forall_not_gt in Ha.
  pose proof (star_match_none _ _ _ _ _ H Ha) as Hk. cbv beta in Hk.
  destruct (src_match_intro _ _ _ _ post Fkw Hq1 Hq2 Hu Hnq) as [r Hr].
  congruence.
Qed.

(** ** The search for the first match *)

Lemma exec_some ic r s res :
  exec ic r s = Some res ->
  exists pre s',
    s = pre ++ s' /\ match_at ic r s' = Some res /\
    (forall pre' s'', s = pre' ++ s'' -> length pre' < length pre ->
       match_at ic r s'' = None).
Proof.
  induction s as [|x t IH]; cbn [exec].
  - destruct (match_at ic r []) eqn:E; [|discriminate].
    intros H. exists [], []. repeat split; [congruence|].
    intros pre' s'' _ L. simpl in L. lia.
  - destruct (match_at ic r (x :: t)) eqn:E.
    + intros H. exists [], (x :: t). repeat split; [congruence|].
      intros pre' s'' _ L. simpl in L. lia.
    + intros H. destruct (IH H) as (pre & s' & Et & Hm & Hfirst).
      exists (x :: pre), s'. repeat split; [simpl; congruence | exact Hm |].
      intros pre' s'' E' L. destruct pre' as [|y pre'].
      * simpl in E'. subst s''. exact E.
      * simpl in E'. injection E' as Ey E'. simpl in L.
        apply (Hfirst pre' s'' E'). lia.
Qed.

Lemma exec_none ic r s :
  exec ic r s = None ->
  forall pre s', s = pre ++ s' -> match_at ic r s' = None.
Proof.
  induction s as [|x t IH]; cbn [exec]; intros H pre s' E.
  - destruct pre; [|discriminate E]. simpl in E. subst s'.
    destruct (match_at ic r []); [discriminate H | reflexivity].
  - destruct (match_at ic r (x :: t)) eqn:Em; [discriminate H|].
    destruct pre as [|y pre].
    + simpl in E. subst s'. exact Em.
    + simpl in E. injection E as Ey E. exact (IH H pre s' E).
Qed.

(** ** extractImage *)

Lemma extractImage_string s :
  extractImage (Some s) =
  match exec true img_regex s with
  | Some (_, cap) => cap
  | None => None
  end.
Proof.
  destruct s as [|x t]; [|reflexivity].
  vm_compute. reflexivity.
Qed.

Lemma extractImage_some s u :
  extractImage (Some s) = Some u ->
  exists pre s' attrs,
    s = pre ++ s' /\ img_src_at s' attrs u /\
    (forall pre' s'' a' u', s = pre' ++ s'' -> img_src_at s'' a' u' ->
       length pre <= length pre') /\
    (forall a' u', img_src_at s' a' u' -> length a' <= length attrs).
Proof.
  rewrite extractImage_string.
  destruct (exec true img_regex s) as [[rest cap]|] eqn:E; [|discriminate].
  intros Hc. subst cap. apply exec_some in E.
  destruct E as (pre & s' & Es & Hm & Hfirst).
  apply match_at_img_some in Hm.
  destruct Hm as (attrs & u' & Hu & Hat & Hgreedy).
  injection Hu as Hu. subst u'.
  exists pre, s', attrs. repeat split; auto.
  intros pre' s'' a' u' E' Hat'.
  destruct (le_lt_dec (length pre) (length pre')) as [L|L]; [exact L|].
  exfalso. exact (match_at_img_none _ _ _ (Hfirst pre' s'' E' L) Hat').
Qed.

Lemma extractImage_none s :
  extractImage (Some s) = None <-> ~ img_occurs s.
Proof.
  rewrite extractImage_string. split.
  - destruct (exec true img_regex s) as [[rest cap]|] eqn:E.
    + intros Hc. subst cap. apply exec_some in E.
      destruct E as (pre & s' & Es & Hm & _).
      apply match_at_img_some in Hm.
      destruct Hm as (attrs & u' & Hu & _). discriminate Hu.
    + intros _ (pre & s' & attrs & u & Es & Hat).
      exact (match_at_img_none _ _ _ (exec_none _ _ _ E pre s' Es) Hat).
  - intros Hno.
    destruct (exec true img_regex s) as [[rest cap]|] eqn:E; [|reflexivity].
    exfalso. apply Hno. apply exec_some in E.
    destruct E as (pre & s' & Es & Hm & _).
    apply match_at_img_some in Hm.
    destruct Hm as (attrs & u & _ & Hat & _).
    exists pre, s', attrs, u. auto.
Qed.

Lemma extractImage_nonempty html : extractImage html <> Some [].
Proof.
  destruct html as [s|]; [|discriminate].
  intros H. apply extractImage_some in H.
  destruct H as (pre & s' & attrs & _ & (tag & kw & q1 & q2 & post & H) & _).
  destruct H as (_ & _ & _ & _ & _ & _ & Hu & _). congruence.
Qed.

(** * Properties of the handler *)

(** ** Objects *)

Section ObjectFacts.
Context {V : Type}.
Implicit Types (o : JsRecord V) (k : jsstring) (v : V).

Lemma jsstring_eqb_refl k : jsstring_eqb k k = true.
Proof. apply jsstring_eqb_eq. reflexivity. Qed.

Lemma jsstring_eqb_neq a b : a <> b -> jsstring_eqb a b = false.
Proof.
  intros H. destruct (jsstring_eqb a b) eqn:E; [|reflexivity].
  apply jsstring_eqb_eq in E. contradiction.
Qed.

Lemma obj_get_put k k' v o :
  obj_get k (obj_put k' v o) =
  if jsstring_eqb k' k then Some v else obj_get k o.
Proof.
  induction o as [|[k0 v0] o IH]; cbn [obj_put obj_get].
  - destruct (jsstring_eqb k' k); reflexivity.
  - destruct (jsstring_eqb k0 k') eqn:E0; cbn [obj_get].
    + apply jsstring_eqb_eq in E0. subst k0.
      destruct (jsstring_eqb k' k); reflexivity.
    + destruct (jsstring_eqb k0 k) eqn:E1; [|exact IH].
      apply jsstring_eqb_eq in E1. subst k0.
      rewrite (jsstring_eqb_neq k' k); [reflexivity|].
      intros E. subst k'. rewrite jsstring_eqb_refl in E0. discriminate E0.
Qed.

Lemma obj_put_keys_new k v o :
  ~ In k (List.map fst o) ->
  List.map fst (obj_put k v o) = List.map fst o ++ [k].
Proof.
  induction o as [|[k0 v0] o IH]; cbn [obj_put List.map fst app]; intros H.
  - reflexivity.
  - rewrite (jsstring_eqb_neq k0 k) by (intros E; apply H; left; exact E).
    cbn [List.map fst app]. rewrite IH; [reflexivity|].
    intros Hin. apply H. right. exact Hin.
Qed.

Lemma own_keys_plain o :
  (forall k, In k (List.map fst o) -> array_index k = None) ->
  own_keys o = List.map fst o.
Proof.
  unfold own_keys. generalize (List.map fst o) as ks.
  induction ks as [|k ks IH]; intros H; [reflexivity|].
  cbn [index_keys string_keys filter].
  rewrite (H k (or_introl eq_refl)).
  assert (Hks : forall k', In k' ks -> array_index k' = None)
    by (intros k' Hin; apply H; right; exact Hin).
  specialize (IH Hks). unfold string_keys in IH.
  destruct (index_keys ks) as [|e l] eqn:Ei.
  - simpl in IH. simpl. rewrite IH. reflexivity.
  - exfalso. clear - Ei Hks.
    assert (Hin : forall ks', (forall k', In k' ks' -> array_index k' = None) ->
              index_keys ks' = []).
    { induction ks' as [|a ks' IHk]; intros Hn; [reflexivity|].
      cbn [index_keys]. rewrite (Hn a (or_introl eq_refl)).
      apply IHk. intros k' Hk'. apply Hn. right. exact Hk'. }
    rewrite (Hin ks Hks) in Ei. discriminate Ei.
Qed.
End ObjectFacts.

(** ** The loop *)

Section HandlerFacts.
Variable parseURL : jsstring -> Settled.

Lemma aggregate_fulfilled feeds results :
  (forall f, In f feeds -> fulfilled parseURL f) ->
  aggregate parseURL feeds results
  = inl (fold_left (store parseURL) feeds results).
Proof.
  revert results. induction feeds as [|g rest IH]; intros results H.
  - reflexivity.
  - cbn [aggregate fold_left].
    destruct (H g (or_introl eq_refl)) as [p Hp].
    unfold store at 2, bucket. rewrite Hp.
    apply IH. intros f Hf. apply H. right. exact Hf.
Qed.

Lemma aggregate_inl feeds results out :
  aggregate parseURL feeds results = inl out ->
  forall f, In f feeds -> fulfilled parseURL f.
Proof.
  revert results. induction feeds as [|g rest IH]; intros results H f Hf.
  - destruct Hf.
  - cbn [aggregate] in H.
    destruct (parseURL (Feed.url g)) as [p|e] eqn:Hg; [|discriminate H].
    destruct Hf as [Hf|Hf].
    + subst f. exists p. exact Hg.
    + exact (IH _ H f Hf).
Qed.

Lemma aggregate_rejected pre f post e results :
  (forall g, In g pre -> fulfilled parseURL g) ->
  parseURL (Feed.url f) = Rejected e ->
  aggregate parseURL (pre ++ f :: post) results = inr e.
Proof.
  revert results. induction pre as [|g pre IH]; intros results Hpre Hf.
  - cbn [app aggregate]. rewrite Hf. reflexivity.
  - cbn [app aggregate].
    destruct (Hpre g (or_introl eq_refl)) as [p Hp]. rewrite Hp.
    apply IH; [|exact Hf]. intros g' Hg'. apply Hpre. right. exact Hg'.
Qed.

Lemma first_rejected feeds :
  (exists f e, In f feeds /\ parseURL (Feed.url f) = Rejected e) ->
  exists pre f post e,
    feeds = pre ++ f :: post /\
    (forall g, In g pre -> fulfilled parseURL g) /\
    parseURL (Feed.url f) = Rejected e.
Proof.
  induction feeds as [|g rest IH]; intros (f & e & Hin & Hf).
  - destruct Hin.
  - destruct (parseURL (Feed.url g)) as [p|e'] eqn:Hg.
    + destruct Hin as [Hin|Hin]; [subst g; congruence|].
      destruct IH as (pre & f' & post & e'' & E & Hpre & Hf').
      { exists f, e. auto. }
      exists (g :: pre), f', post, e''. split; [simpl; congruence|].
      split; [|exact Hf'].
      intros g' [Hg'|Hg']; [subst g'; exists p; exact Hg | auto].
    + exists [], g, rest, e'. split; [reflexivity|].
      split; [intros g' []|exact Hg].
Qed.

Lemma fold_store_keys feeds acc :
  NoDup (List.map fst acc ++ List.map Feed.name feeds) ->
  (forall f, In f feeds -> Feed.name f <> js "__proto__") ->
  List.map fst (fold_left (store parseURL) feeds acc)
  = List.map fst acc ++ List.map Feed.name feeds.
Proof.
  revert acc. induction feeds as [|g rest IH]; intros acc Hnd Hpl.
  - simpl. symmetry. apply app_nil_r.
  - cbn [fold_left List.map].
    assert (Hg : ~ In (Feed.name g) (List.map fst acc)).
    { intros Hin. apply NoDup_remove_2 in Hnd. apply Hnd.
      apply in_or_app. left. exact Hin. }
    assert (Ek : List.map fst (store parseURL acc g)
                 = List.map fst acc ++ [Feed.name g]).
    { unfold store, obj_assign.
      rewrite jsstring_eqb_neq by (apply Hpl; left; reflexivity).
      apply obj_put_keys_new. exact Hg. }
    rewrite IH.
    + rewrite Ek, <- app_assoc. reflexivity.
    + rewrite Ek, <- app_assoc. exact Hnd.
    + intros f Hf. apply Hpl. right. exact Hf.
Qed.

Lemma obj_get_store k acc g :
  obj_get k (store parseURL acc g) =
  if jsstring_eqb (Feed.name g) (js "__proto__") then obj_get k acc
  else if jsstring_eqb (Feed.name g) k then Some (bucket parseURL g)
  else obj_get k acc.
Proof.
  unfold store, obj_assign.
  destruct (jsstring_eqb (Feed.name g) (js "__proto__")); [reflexivity|].
  apply obj_get_put.
Qed.

Lemma fold_store_get_other feeds acc k :
  ~ In k (List.map Feed.name feeds) ->
  obj_get k (fold_left (store parseURL) feeds acc) = obj_get k acc.
Proof.
  revert acc. induction feeds as [|g rest IH]; intros acc H; [reflexivity|].
  cbn [fold_left]. rewrite IH.
  - rewrite obj_get_store.
    destruct (jsstring_eqb (Feed.name g) (js "__proto__")); [reflexivity|].
    rewrite jsstring_eqb_neq; [reflexivity|].
    intros E. apply H. left. exact E.
  - intros Hin. apply H. right. exact Hin.
Qed.

Lemma fold_store_get feeds acc f :
  NoDup (List.map Feed.name feeds) -> In f feeds ->
  Feed.name f <> js "__proto__" ->
  obj_get (Feed.name f) (fold_left (store parseURL) feeds acc)
  = Some (bucket parseURL f).
Proof.
  revert acc. induction feeds as [|g rest IH]; intros acc Hnd Hin Hpl.
  - destruct Hin.
  - cbn [fold_left]. cbn [List.map] in Hnd.
    apply NoDup_cons_iff in Hnd. destruct Hnd as [Hg Hnd].
    destruct Hin as [Hin|Hin].
    + subst g. rewrite fold_store_get_other by exact Hg.
      rewrite obj_get_store, (jsstring_eqb_neq _ _ Hpl), jsstring_eqb_refl.
      reflexivity.
    + apply IH; assumption.
Qed.

Lemma fold_store_values feeds acc k arts :
  obj_get k (fold_left (store parseURL) feeds acc) = Some arts ->
  obj_get k acc = Some arts \/
  exists f, In f feeds /\ arts = bucket parseURL f.
Proof.
  revert acc. induction feeds as [|g rest IH]; intros acc H.
  - left. exact H.
  - cbn [fold_left] in H. destruct (IH _ H) as [H1|(f & Hf & E)].
    + rewrite obj_get_store in H1.
      destruct (jsstring_eqb (Feed.name g) (js "__proto__")); [left; exact H1|].
      destruct (jsstring_eqb (Feed.name g) k).
      * right. exists g. split; [left; reflexivity | congruence].
      * left. exact H1.
    + right. exists f. split; [right; exact Hf | exact E].
Qed.
End HandlerFacts.

(** ** The configured sources *)

Lemma FEEDS_names_NoDup : NoDup (List.map Feed.name FEEDS).
Proof.
  vm_compute.
  repeat (constructor; [cbv [In]; intuition discriminate|]). constructor.
Qed.

Lemma FEEDS_names_plain f :
  In f FEEDS ->
  Feed.name f <> js "__proto__" /\ array_index (Feed.name f) = None.
Proof.
  intros H. cbv [FEEDS In] in H.
  repeat (destruct H as [H|H]; [subst f; split; [vm_compute; discriminate | vm_compute; reflexivity]|]).
  destruct H.
Qed.

(** ** The response *)

Lemma GET_fulfilled parseURL :
  (forall f, In f FEEDS -> fulfilled parseURL f) ->
  GET parseURL
  = Response.mk 200 (FeedsBody (fold_left (store parseURL) FEEDS [])).
Proof.
  intros H. unfold GET. rewrite (aggregate_fulfilled parseURL FEEDS [] H).
  reflexivity.
Qed.

Lemma GET_ok_inv parseURL results :
  GET parseURL = Response.mk 200 (FeedsBody results) ->
  (forall f, In f FEEDS -> fulfilled parseURL f) /\
  results = fold_left (store parseURL) FEEDS [].
Proof.
  unfold GET. intros H.
  destruct (aggregate parseURL FEEDS []) as [out|e] eqn:E; [|discriminate H].
  injection H as H. subst out.
  pose proof (aggregate_inl parseURL FEEDS [] results E) as Hall.
  split; [exact Hall|].
  rewrite (aggregate_fulfilled parseURL FEEDS [] Hall) in E. congruence.
Qed.

Lemma GET_articles parseURL results k arts a :
  GET parseURL = Response.mk 200 (FeedsBody results) ->
  obj_get k results = Some arts -> In a arts ->
  exists feed parsed item,
    In feed FEEDS /\ parseURL (Feed.url feed) = Fulfilled parsed /\
    In item (firstn 10 (Parsed.items parsed)) /\
    a = build_item feed parsed item.
Proof.
  intros HG Hk Ha. apply GET_ok_inv in HG. destruct HG as [_ ->].
  apply fold_store_values in Hk. destruct Hk as [Hk|(f & Hf & E)].
  - discriminate Hk.
  - subst arts. unfold bucket in Ha.
    destruct (parseURL (Feed.url f)) as [p|e] eqn:Hp; [|destruct Ha].
    apply in_map_iff in Ha. destruct Ha as (item & Ei & Hi).
    exists f, p, item. auto.
Qed.

(** * The claims *)

(** C1. When the call succeeds, the list stored under the name of a source
    whose fetch gave [parsed] is the image, entry by entry, of the first ten
    entries of [parsed] in their order; its length is the minimum of 10 and
    of the number of entries. *)
Theorem bounded_count parseURL results feed parsed :
  GET parseURL = Response.mk 200 (FeedsBody results) ->
  In feed FEEDS ->
  parseURL (Feed.url feed) = Fulfilled parsed ->
  exists arts,
    obj_get (Feed.name feed) results = Some arts /\
    arts = List.map (build_item feed parsed) (firstn 10 (Parsed.items parsed)) /\
    length arts = Nat.min 10 (length (Parsed.items parsed)).
Proof.
  intros HG Hin Hp. apply GET_ok_inv in HG. destruct HG as [_ ->].
  exists (List.map (build_item feed parsed) (firstn 10 (Parsed.items parsed))).
  split; [|split].
  - rewrite (fold_store_get parseURL FEEDS [] feed FEEDS_names_NoDup Hin
               (proj1 (FEEDS_names_plain feed Hin))).
    unfold bucket. rewrite Hp. reflexivity.
  - reflexivity.
  - rewrite length_map, length_firstn. reflexivity.
Qed.

Lemma bounded_count_witness :
  exists arts,
    obj_get (js "TechCrunch") (fold_left (store all_fulfilled) FEEDS [])
    = Some arts /\
    arts = List.map (build_item feed_techcrunch (sample_parsed 12))
             (firstn 10 (repeat sample_item 12)) /\
    length arts = Nat.min 10 (length (repeat sample_item 12)).
Proof.
  apply (bounded_count all_fulfilled
           (fold_left (store all_fulfilled) FEEDS [])
           feed_techcrunch (sample_parsed 12)).
  - reflexivity.
  - right. left. reflexivity.
  - reflexivity.
Defined.

(** C2. Whatever the entry holds, the snippet of its article contains no tag
    marker, has at most 228 code units and ends with the three dots; it is
    the first 225 code units of the stripped description followed by the
    dots, so the dots are there even when nothing was cut. *)
Theorem snippet_shape feed parsed item :
  ~ has_tag_marker (FeedItem.contentSnippet (build_item feed parsed item)) /\
  length (FeedItem.contentSnippet (build_item feed parsed item)) <= 228 /\
  ends_with (FeedItem.contentSnippet (build_item feed parsed item)) (js "...") /\
  FeedItem.contentSnippet (build_item feed parsed item)
  = firstn 225 (strip_tags (desc item)) ++ js "..." /\
  (length (strip_tags (desc item)) <= 225 ->
   FeedItem.contentSnippet (build_item feed parsed item)
   = strip_tags (desc item) ++ js "...").
Proof.
  cbn [build_item FeedItem.contentSnippet].
  destruct (snippet_of_shape (desc item)) as (H1 & H2 & H3 & H4).
  repeat split; auto.
Qed.

Lemma snippet_shape_witness :
  FeedItem.contentSnippet (build_item feed_techcrunch (sample_parsed 1) sample_item)
  = js "Hello world ...".
Proof.
  destruct (snippet_shape feed_techcrunch (sample_parsed 1) sample_item)
    as (_ & _ & _ & _ & H).
  rewrite H; [reflexivity | vm_compute; lia].
Defined.

(** C3. When the fetch of a source throws, the response is the one of the
    first source that throws, in the order of the list: status 500 and the
    body that holds the message of that error. No mapping is returned. *)
Theorem fail_fast parseURL :
  (exists f e, In f FEEDS /\ parseURL (Feed.url f) = Rejected e) ->
  exists pre f post e,
    FEEDS = pre ++ f :: post /\
    (forall g, In g pre -> fulfilled parseURL g) /\
    parseURL (Feed.url f) = Rejected e /\
    GET parseURL = Response.mk 500 (ErrorBody (JsError.message e)) /\
    (forall results, Response.body (GET parseURL) <> FeedsBody results).
Proof.
  intros H. apply first_rejected in H.
  destruct H as (pre & f & post & e & E & Hpre & Hf).
  exists pre, f, post, e.
  assert (HG : GET parseURL = Response.mk 500 (ErrorBody (JsError.message e))).
  { unfold GET. rewrite E.
    rewrite (aggregate_rejected parseURL pre f post e [] Hpre Hf). reflexivity. }
  repeat split; auto.
  intros results. rewrite HG. discriminate.
Qed.

Lemma fail_fast_witness :
  exists pre f post e,
    FEEDS = pre ++ f :: post /\
    (forall g, In g pre -> fulfilled wired_down g) /\
    wired_down (Feed.url f) = Rejected e /\
    GET wired_down = Response.mk 500 (ErrorBody (JsError.message e)) /\
    (forall results, Response.body (GET wired_down) <> FeedsBody results).
Proof.
  apply (fail_fast wired_down).
  exists feed_wired, (JsError.mk (js "Status code 503")).
  split; [vm_compute; tauto | reflexivity].
Defined.

Lemma js_or_extract html b :
  js_or (extractImage html) b =
  match extractImage html with
  | Some u => Some u
  | None => b
  end.
Proof.
  pose proof (extractImage_nonempty html) as H. unfold js_or, truthy.
  destruct (extractImage html) as [[|c s]|];
    [exfalso; apply H; reflexivity | reflexivity | reflexivity].
Qed.

Lemma js_or_nonempty a b : b <> Some [] -> js_or a b <> Some [].
Proof.
  intros Hb. unfold js_or, truthy. destruct a as [[|c s]|]; [exact Hb | discriminate | exact Hb].
Qed.

Lemma channelImage_nonempty parsed : channelImage parsed <> Some [].
Proof. apply js_or_nonempty, extractImage_nonempty. Qed.

Lemma img_of_nonempty parsed item : img parsed item <> Some [].
Proof. apply js_or_nonempty, channelImage_nonempty. Qed.

(** C4. The image of an article is the URL extracted from the resolved
    description; failing that, the URL extracted from the summary; failing
    that, the fallback image of the channel, and nothing when that fails
    too. The scenario with the images A, B and C follows. *)
Theorem image_fallback_order :
  (forall feed parsed item,
     FeedItem.image (build_item feed parsed item) =
     match extractImage (Some (desc item)) with
     | Some a => Some a
     | None =>
         match extractImage (Item.contentSnippet item) with
         | Some b => Some b
         | None => channelImage parsed
         end
     end) /\
  (forall feed q1 q2,
     is_quote q1 -> is_quote q2 ->
     FeedItem.image
       (build_item feed (parsed_with_image (Some url_C))
          (entry_with (js "<p>Text " ++ img_tag q1 url_A ++ js "</p>")
             (js "Text " ++ img_tag q2 url_B)))
     = Some url_A /\
     FeedItem.image
       (build_item feed (parsed_with_image (Some url_C))
          (entry_with (js "<p>Text</p>") (js "Text " ++ img_tag q2 url_B)))
     = Some url_B /\
     FeedItem.image
       (build_item feed (parsed_with_image (Some url_C))
          (entry_with (js "<p>Text</p>") (js "Text")))
     = Some url_C /\
     FeedItem.image
       (build_item feed (parsed_with_image None)
          (entry_with (js "<p>Text</p>") (js "Text")))
     = None).
Proof.
  split.
  - intros feed parsed item. cbn [build_item FeedItem.image]. unfold img.
    rewrite (js_or_extract (Some (desc item))).
    pose proof (extractImage_nonempty (Some (desc item))) as Ha.
    destruct (extractImage (Some (desc item))) as [[|c a]|].
    + exfalso. apply Ha. reflexivity.
    + reflexivity.
    + apply js_or_extract.
  - intros feed q1 q2 [-> | ->] [-> | ->]; repeat split; vm_compute; reflexivity.
Qed.

Lemma image_fallback_order_witness :
  FeedItem.image
    (build_item feed_techcrunch (parsed_with_image (Some url_C))
       (entry_with (js "<p>Text</p>")
          (js "Text " ++ img_tag ch_dquote url_B)))
  = Some url_B.
Proof.
  apply (proj2 image_fallback_order feed_techcrunch ch_squote ch_dquote).
  - right. reflexivity.
  - left. reflexivity.
Defined.



(** C6. The categories of an article are the upstream list when the
    upstream value is a list, the one-element list of the string when it is
    a string, and the empty list for every other value. *)
Theorem category_normalization feed parsed item :
  (forall elems, Item.categories item = JsArray elems ->
     FeedItem.categories (build_item feed parsed item) = elems) /\
  (forall s, Item.categories item = JsString s ->
     FeedItem.categories (build_item feed parsed item) = [JsString s]) /\
  ((forall elems, Item.categories item <> JsArray elems) ->
   (forall s, Item.categories item <> JsString s) ->
   FeedItem.categories (build_item feed parsed item) = []).
Proof.
  cbn [build_item FeedItem.categories]. unfold categories.
  split; [|split].
  - intros elems ->. reflexivity.
  - intros s ->. reflexivity.
  - intros Harr Hstr.
    destruct (Item.categories item) as [| |b|n|s|elems|props]; try reflexivity.
    + exfalso. exact (Hstr s eq_refl).
    + exfalso. exact (Harr elems eq_refl).
Qed.

Lemma category_normalization_witness :
  FeedItem.categories
    (build_item feed_techcrunch (sample_parsed 1) sample_item)
  = [JsString (js "Tech"); JsString (js "World")] /\
  FeedItem.categories
    (build_item feed_techcrunch (sample_parsed 1) empty_creator_item)
  = [].
Proof.
  split.
  - apply (proj1 (category_normalization feed_techcrunch (sample_parsed 1)
                    sample_item)).
    reflexivity.
  - apply (proj2 (proj2 (category_normalization feed_techcrunch
                           (sample_parsed 1) empty_creator_item)));
      intros x; discriminate.
Defined.

(** C7, as the claim states it, fails: an entry whose creator is the empty
    string is attributed to the title of the feed. *)
Lemma channel_empty_creator :
  Item.creator empty_creator_item = Some [] /\
  FeedItem.channel
    (build_item feed_techcrunch (sample_parsed 1) empty_creator_item)
  = js "Sample feed" /\
  FeedItem.channel
    (build_item feed_techcrunch (sample_parsed 1) empty_creator_item)
  <> channel_spec feed_techcrunch (sample_parsed 1) empty_creator_item.
Proof.
  split; [reflexivity|]. split; [reflexivity|]. vm_compute. discriminate.
Qed.

(** C7, amended. The channel of an article is the creator of the entry when
    it is a non-empty string; else the title of the feed when it is a
    non-empty string; else the name of the source. It is what the claim
    states whenever neither field is the empty string. *)
Theorem channel_fallback feed parsed item :
  FeedItem.channel (build_item feed parsed item)
  = first_truthy [Item.creator item; Parsed.title parsed] (Feed.name feed) /\
  (Item.creator item <> Some [] -> Parsed.title parsed <> Some [] ->
   FeedItem.channel (build_item feed parsed item)
   = channel_spec feed parsed item).
Proof.
  cbn [build_item FeedItem.channel]. unfold channel_spec, js_or, truthy.
  cbn [first_truthy].
  destruct (Item.creator item) as [[|c s]|];
    destruct (Parsed.title parsed) as [[|c' s']|];
    split; try reflexivity; intros H1 H2;
    try reflexivity; exfalso; (apply H1 + apply H2); reflexivity.
Qed.

Lemma channel_fallback_witness :
  FeedItem.channel (build_item feed_techcrunch (sample_parsed 1) sample_item)
  = channel_spec feed_techcrunch (sample_parsed 1) sample_item.
Proof.
  apply (proj2 (channel_fallback feed_techcrunch (sample_parsed 1) sample_item));
    discriminate.
Defined.

(** C8. [extractImage] gives nothing for an absent or empty input. When it
    gives [u], the input holds an occurrence of the image pattern whose URL
    is [u], no occurrence starts further left, and no occurrence at that
    place has a longer attribute run. It gives nothing exactly when the
    pattern does not occur. *)
Theorem extractImage_first_occurrence :
  extractImage None = None /\
  extractImage (Some []) = None /\
  (forall s u, extractImage (Some s) = Some u ->
     exists pre s' attrs,
       s = pre ++ s' /\ img_src_at s' attrs u /\
       (forall pre' s'' a' u', s = pre' ++ s'' -> img_src_at s'' a' u' ->
          length pre <= length pre') /\
       (forall a' u', img_src_at s' a' u' -> length a' <= length attrs)) /\
  (forall s, extractImage (Some s) = None <-> ~ img_occurs s) /\
  (forall s, img_occurs s -> exists u, extractImage (Some s) = Some u).
Proof.
  split; [reflexivity|]. split; [reflexivity|]. split; [|split].
  - exact extractImage_some.
  - exact extractImage_none.
  - intros s Hocc. destruct (extractImage (Some s)) as [u|] eqn:E.
    + exists u. reflexivity.
    + apply extractImage_none in E. contradiction.
Qed.

Lemma extractImage_first_occurrence_witness :
  exists pre s' attrs,
    js "<p>x</p><IMG alt='a' SRC='one.png'><img src='two.png'>" = pre ++ s' /\
    img_src_at s' attrs (js "one.png") /\
    (forall pre' s'' a' u',
       js "<p>x</p><IMG alt='a' SRC='one.png'><img src='two.png'>"
       = pre' ++ s'' ->
       img_src_at s'' a' u' -> length pre <= length pre') /\
    (forall a' u', img_src_at s' a' u' -> length a' <= length attrs).
Proof.
  apply (proj1 (proj2 (proj2 extractImage_first_occurrence))).
  vm_compute. reflexivity.
Defined.






(** * Examples *)

(** A pair of angle brackets with nothing between them is no tag for the
    pattern and stays; an unclosed tag at the end goes. *)
Example snippet_empty_pair :
  snippet_of (js "a <> b <i>c</i> <unclosed") = js "a <> b c ...".
Proof. vm_compute. reflexivity. Qed.

(** The greedy attribute run reaches the last src of the tag. *)
Example extractImage_last_src :
  extractImage (Some (js "<img src='first.png' data-src='second.png'>"))
  = Some (js "second.png").
Proof. vm_compute. reflexivity. Qed.

(** A tab after img is not the space of the pattern. *)
Example extractImage_needs_space :
  extractImage (Some (js "<img" ++ [9%N] ++ js "src='a.png'>")) = None.
Proof. vm_compute. reflexivity. Qed.

(** Two sources, of twelve and of three entries: ten and three articles, in
    the order of the sources. *)
Example two_sources_scenario :
  exists results,
    aggregate two_sources [feed_A; feed_B] [] = inl results /\
    own_keys results = [js "A"; js "B"] /\
    option_map (@length _) (obj_get (js "A") results) = Some 10 /\
    option_map (@length _) (obj_get (js "B") results) = Some 3.
Proof. eexists. repeat split; vm_compute; reflexivity. Qed.

(** An array index among the keys comes first, whatever the creation
    order. *)
Example own_keys_index_first :
  own_keys [(js "Wired", 1); (js "7", 2); (js "10", 3); (js "07", 4)]
  = [js "7"; js "10"; js "Wired"; js "07"].
Proof. vm_compute. reflexivity. Qed.

(** * More on the tag pattern *)

Lemma tag_rest_not_lt c t : c <> ch_lt -> tag_rest (c :: t) = None.
Proof.
  intros H. destruct t as [|c2 t]; [reflexivity|]. cbn [tag_rest].
  destruct (N.eqb_spec c ch_lt); [contradiction | reflexivity].
Qed.

Lemma strip_tags_clean_prefix pre s :
  ~ In ch_lt pre -> strip_tags (pre ++ s) = pre ++ strip_tags s.
Proof.
  induction pre as [|c pre IH]; intros H; [reflexivity|].
  cbn [app]. rewrite strip_tags_eq, tag_rest_not_lt.
  - rewrite IH; [reflexivity|]. intros Hin. apply H. right. exact Hin.
  - intros E. apply H. left. exact E.
Qed.

Lemma after_gt_run body post :
  ~ In ch_gt body -> after_gt (body ++ ch_gt :: post) = post.
Proof.
  induction body as [|b body IH]; intros H; [reflexivity|].
  cbn [app after_gt]. destruct (N.eqb_spec b ch_gt) as [E|_].
  - exfalso. apply H. left. exact E.
  - apply IH. intros Hin. apply H. right. exact Hin.
Qed.

Lemma after_gt_none rest : ~ In ch_gt rest -> after_gt rest = [].
Proof.
  induction rest as [|b rest IH]; intros H; [reflexivity|].
  cbn [after_gt]. destruct (N.eqb_spec b ch_gt) as [E|_].
  - exfalso. apply H. left. exact E.
  - apply IH. intros Hin. apply H. right. exact Hin.
Qed.

Lemma strip_tags_fixed o : lt_closed o = true -> strip_tags o = o.
Proof.
  induction o as [|c t IH]; intros H; [reflexivity|].
  cbn [lt_closed] in H. apply andb_true_iff in H. destruct H as [Hc Ht].
  rewrite strip_tags_eq.
  assert (E : tag_rest (c :: t) = None).
  { destruct t as [|d t]; [reflexivity|]. cbn [tag_rest].
    destruct (c =? ch_lt)%N; [|reflexivity]. rewrite Hc. reflexivity. }
  rewrite E, (IH Ht). reflexivity.
Qed.

Lemma subseq_refl s : subseq s s.
Proof. induction s; constructor; assumption. Qed.

Lemma subseq_app_skip m a b : subseq a b -> subseq a (m ++ b).
Proof. intros H. induction m; [exact H | constructor; assumption]. Qed.

Lemma subseq_length a b : subseq a b -> length a <= length b.
Proof. induction 1; simpl; lia. Qed.

Lemma tag_rest_suffix s rest : tag_rest s = Some rest -> exists m, s = m ++ rest.
Proof.
  destruct s as [|c1 [|c2 t]]; try discriminate. cbn [tag_rest].
  destruct ((c1 =? ch_lt) && negb (c2 =? ch_gt))%N; [|discriminate].
  intros H. injection H as H. subst rest.
  destruct (after_gt_suffix t) as [m E].
  exists (c1 :: c2 :: m). simpl. congruence.
Qed.

Lemma strip_tags_subseq s : subseq (strip_tags s) s.
Proof.
  remember (length s) as n eqn:Hn. revert s Hn.
  induction n as [n IH] using lt_wf_ind. intros s Hn.
  rewrite strip_tags_eq. destruct s as [|c t]; [constructor|].
  destruct (tag_rest (c :: t)) as [rest|] eqn:E.
  - apply tag_rest_length in E as L. apply tag_rest_suffix in E as [m Em].
    rewrite Em. apply subseq_app_skip.
    apply (IH (length rest)); [lia | reflexivity].
  - apply subseq_keep. apply (IH (length t)); [simpl in Hn; lia | reflexivity].
Qed.

(** X1. A text without [<] goes through the tag removal unchanged, also in
    front of any other text; its snippet is its first 225 code units and
    the dots. *)
Theorem strip_tags_plain_text pre s :
  ~ In ch_lt pre ->
  strip_tags (pre ++ s) = pre ++ strip_tags s /\
  strip_tags pre = pre /\
  snippet_of pre = firstn 225 pre ++ js "...".
Proof.
  intros H. split; [exact (strip_tags_clean_prefix pre s H)|].
  assert (E : strip_tags pre = pre).
  { rewrite <- (app_nil_r pre) at 1. rewrite strip_tags_clean_prefix by exact H.
    apply app_nil_r. }
  split; [exact E|]. unfold snippet_of. rewrite E. reflexivity.
Qed.

Lemma strip_tags_plain_text_witness :
  strip_tags (js "5 > 3 and " ++ js "<b>so</b> on")
  = js "5 > 3 and " ++ strip_tags (js "<b>so</b> on") /\
  strip_tags (js "5 > 3 and ") = js "5 > 3 and " /\
  snippet_of (js "5 > 3 and ") = firstn 225 (js "5 > 3 and ") ++ js "...".
Proof.
  apply (strip_tags_plain_text (js "5 > 3 and ") (js "<b>so</b> on")).
  vm_compute. intuition discriminate.
Defined.

(** X2. Removing the tags twice is removing them once: the result of the
    removal holds nothing that the pattern matches. *)
Theorem strip_tags_idempotent s : strip_tags (strip_tags s) = strip_tags s.
Proof.
  apply strip_tags_fixed.
  apply strip_tags_lt_closed.
Qed.

(** X3. The tag removal only leaves code units out: its result is a
    subsequence of the text, and never longer. *)
Theorem strip_tags_only_removes s :
  subseq (strip_tags s) s /\ length (strip_tags s) <= length s.
Proof.
  split; [apply strip_tags_subseq | apply subseq_length, strip_tags_subseq].
Qed.

(** X4. After a text without [<], a tag (a [<], one or more code units other
    than [>], a [>]) is dropped and the removal goes on behind it. *)
Theorem strip_tags_drops_tag pre body post :
  ~ In ch_lt pre -> body <> [] -> ~ In ch_gt body ->
  strip_tags (pre ++ ch_lt :: body ++ ch_gt :: post) = pre ++ strip_tags post.
Proof.
  intros Hpre Hbody Hgt. rewrite strip_tags_clean_prefix by exact Hpre.
  f_equal. rewrite strip_tags_eq.
  destruct body as [|b body]; [congruence|].
  cbn [app tag_rest]. change (ch_lt =? ch_lt)%N with true.
  destruct (N.eqb_spec b ch_gt) as [E|_].
  - exfalso. apply Hgt. left. exact E.
  - cbn [andb negb]. rewrite after_gt_run; [reflexivity|].
    intros Hin. apply Hgt. right. exact Hin.
Qed.

Lemma strip_tags_drops_tag_witness :
  strip_tags (js "Hello " ++ ch_lt :: js "a href='x'" ++ ch_gt :: js "world")
  = js "Hello " ++ strip_tags (js "world").
Proof.
  apply (strip_tags_drops_tag (js "Hello ") (js "a href='x'") (js "world"));
    vm_compute; intuition discriminate.
Defined.

(** X5. A [<] that is followed by a code unit other than [>] and never
    closed takes the rest of the text with it: after a text without [<],
    nothing from that [<] on is kept. *)
Theorem strip_tags_unclosed pre c rest :
  ~ In ch_lt pre -> c <> ch_gt -> ~ In ch_gt rest ->
  strip_tags (pre ++ ch_lt :: c :: rest) = pre.
Proof.
  intros Hpre Hc Hrest. rewrite strip_tags_clean_prefix by exact Hpre.
  rewrite strip_tags_eq. cbn [tag_rest]. change (ch_lt =? ch_lt)%N with true.
  destruct (N.eqb_spec c ch_gt) as [E|_]; [contradiction|].
  cbn [andb negb]. rewrite (after_gt_none rest Hrest).
  change (strip_tags []) with (@nil codeunit). apply app_nil_r.
Qed.

Lemma strip_tags_unclosed_witness :
  strip_tags (js "if a " ++ ch_lt :: 32%N :: js "b then stop") = js "if a ".
Proof.
  apply (strip_tags_unclosed (js "if a ") 32%N (js "b then stop"));
    vm_compute; intuition discriminate.
Defined.

(** * More on the image pattern *)

Lemma split_at_quote u q rest u' q' rest' :
  (forall x, In x u -> ~ is_quote x) -> (forall x, In x u' -> ~ is_quote x) ->
  is_quote q -> is_quote q' ->
  u ++ q :: rest = u' ++ q' :: rest' -> u = u' /\ rest = rest'.
Proof.
  revert u'. induction u as [|x u IH]; intros [|y u'] Hu Hu' Hq Hq' E;
    cbn [app] in E.
  - injection E as _ E. auto.
  - injection E as Ey _. exfalso. apply (Hu' y (or_introl eq_refl)).
    rewrite <- Ey. exact Hq.
  - injection E as Ex _. exfalso. apply (Hu x (or_introl eq_refl)).
    rewrite Ex. exact Hq'.
  - injection E as Ex E. subst y.
    destruct (IH u') as [E1 E2]; auto.
    + intros z Hz. apply Hu. right. exact Hz.
    + intros z Hz. apply Hu'. right. exact Hz.
    + split; congruence.
Qed.

(** After the letters of [src=], a quote, [u] and a quote, the continuation
    of the attribute run captures exactly [u]. *)
Lemma src_match_exact kw q1 u q2 rest :
  ci_eq (js "src=") kw -> is_quote q1 -> is_quote q2 -> u <> [] ->
  (forall x, In x u -> ~ is_quote x) ->
  rmatch true img_src accept (kw ++ q1 :: u ++ q2 :: rest) None
  = Some (rest, Some u).
Proof.
  intros Fkw Hq1 Hq2 Hu Hnq.
  destruct (src_match_intro kw q1 u q2 rest Fkw Hq1 Hq2 Hu Hnq) as [[r c] Hr].
  rewrite Hr. apply src_match_some in Hr.
  destruct Hr as (kw' & q1' & u' & q2' & E & Fkw' & _ & Hq2' & _ & Hnq' & Hc).
  apply app_same_length in E.
  2:{ rewrite (ci_eq_length _ _ Fkw), (ci_eq_length _ _ Fkw'). reflexivity. }
  destruct E as [_ E]. injection E as _ E.
  destruct (split_at_quote u q2 rest u' q2' r Hnq Hnq' Hq2 Hq2' E) as [Eu Er].
  subst u' r c. reflexivity.
Qed.

Lemma ci_eq_canon a b x :
  char_eqb true a x = true -> char_eqb true b x = true ->
  canonicalize true a = canonicalize true b.
Proof.
  unfold char_eqb. intros Ha Hb. apply N.eqb_eq in Ha, Hb. congruence.
Qed.

Lemma lit_strip_head ic c lit x t :
  char_eqb ic c x = false -> lit_strip ic (c :: lit) (x :: t) = None.
Proof. intros H. cbn [lit_strip]. rewrite H. reflexivity. Qed.

(** The letters of [src=] do not start in front of a [>] that no [=]
    precedes. *)
Lemma no_src_before_gt t0 post :
  ~ In 61%N t0 -> lit_strip true (js "src=") (t0 ++ ch_gt :: post) = None.
Proof.
  intros H.
  change (js "src=") with [115%N; 114%N; 99%N; 61%N].
  destruct t0 as [|x1 [|x2 [|x3 [|x4 t0]]]]; cbn [app lit_strip].
  - reflexivity.
  - destruct (char_eqb true 115%N x1); reflexivity.
  - destruct (char_eqb true 115%N x1); [|reflexivity].
    destruct (char_eqb true 114%N x2); reflexivity.
  - destruct (char_eqb true 115%N x1); [|reflexivity].
    destruct (char_eqb true 114%N x2); [|reflexivity].
    destruct (char_eqb true 99%N x3); reflexivity.
  - destruct (char_eqb true 115%N x1); [|reflexivity].
    destruct (char_eqb true 114%N x2); [|reflexivity].
    destruct (char_eqb true 99%N x3); [|reflexivity].
    rewrite char_eqb_true_low by reflexivity.
    destruct (N.eqb_spec 61%N x4) as [E|_]; [|reflexivity].
    exfalso. apply H. right. right. right. left. symmetry. exact E.
Qed.

Lemma split_before (x : codeunit) t0 post b s :
  t0 ++ x :: post = b ++ s -> ~ In x b ->
  exists t1, t0 = b ++ t1 /\ s = t1 ++ x :: post.
Proof.
  revert t0. induction b as [|y b IH]; intros t0 E Hb.
  - exists t0. auto.
  - destruct t0 as [|z t0]; cbn [app] in E.
    + injection E as Ey _. exfalso. apply Hb. left. symmetry. exact Ey.
    + injection E as Ez E. subst z.
      destruct (IH t0 E) as (t1 & E1 & E2).
      * intros Hin. apply Hb. right. exact Hin.
      * exists t1. split; [simpl; congruence | exact E2].
Qed.

(** Behind the place of [src=], no later place of the attribute run lets
    the rest of the pattern match. *)
Lemma no_later_src kw t0 post b s :
  ci_eq (js "src=") kw -> ~ In 61%N t0 ->
  kw ++ t0 ++ ch_gt :: post = b ++ s -> b <> [] -> ~ In ch_gt b ->
  rmatch true img_src accept s None = None.
Proof.
  intros Fkw Ht0 E Hb Hgt. unfold img_src. rewrite rmatch_RLit.
  assert (Hs : lit_strip true (js "src=") s = None); [|rewrite Hs; reflexivity].
  change (js "src=") with [115%N; 114%N; 99%N; 61%N] in *.
  inversion Fkw as [|a1 k1 l1 r1 H1 F1]; subst.
  inversion F1 as [|a2 k2 l2 r2 H2 F2]; subst.
  inversion F2 as [|a3 k3 l3 r3 H3 F3]; subst.
  inversion F3 as [|a4 k4 l4 r4 H4 F4]; subst.
  inversion F4; subst. cbn [app] in E.
  destruct b as [|b1 b]; [congruence|]. cbn [app] in E. injection E as _ E.
  destruct b as [|b2 b]; cbn [app] in E.
  { subst s. apply lit_strip_head.
    destruct (char_eqb true 115%N k2) eqn:C; [|reflexivity].
    pose proof (ci_eq_canon _ _ _ C H2) as A. vm_compute in A. discriminate A. }
  injection E as _ E. destruct b as [|b3 b]; cbn [app] in E.
  { subst s. apply lit_strip_head.
    destruct (char_eqb true 115%N k3) eqn:C; [|reflexivity].
    pose proof (ci_eq_canon _ _ _ C H3) as A. vm_compute in A. discriminate A. }
  injection E as _ E. destruct b as [|b4 b]; cbn [app] in E.
  { subst s. apply lit_strip_head.
    destruct (char_eqb true 115%N k4) eqn:C; [|reflexivity].
    pose proof (ci_eq_canon _ _ _ C H4) as A. vm_compute in A. discriminate A. }
  injection E as _ E.
  destruct (split_before ch_gt t0 post b s E) as (t1 & E1 & E2).
  { intros Hin. apply Hgt. do 4 right. exact Hin. }
  subst s. apply no_src_before_gt.
  intros Hin. apply Ht0. rewrite E1. apply in_or_app. right. exact Hin.
Qed.

Lemma match_at_not_lt c t : c <> ch_lt -> match_at true img_regex (c :: t) = None.
Proof.
  intros H. rewrite match_at_img_unfold.
  change (js "<img ") with [60%N; 105%N; 109%N; 103%N; 32%N].
  cbn [lit_strip]. rewrite char_eqb_true_low by reflexivity.
  destruct (N.eqb_spec 60%N c) as [E|_]; [|reflexivity].
  exfalso. apply H. symmetry. exact E.
Qed.

Lemma exec_clean_prefix pre s :
  ~ In ch_lt pre -> exec true img_regex (pre ++ s) = exec true img_regex s.
Proof.
  induction pre as [|c pre IH]; intros H; [reflexivity|].
  cbn [app exec]. rewrite match_at_not_lt.
  - apply IH. intros Hin. apply H. right. exact Hin.
  - intros E. apply H. left. exact E.
Qed.

Lemma exec_here ic r s res : match_at ic r s = Some res -> exec ic r s = Some res.
Proof. intros H. destruct s; cbn [exec]; rewrite H; reflexivity. Qed.

Lemma app_prefix_eq (a b c d : jsstring) :
  a ++ b = c ++ d -> length a <= length c -> exists m, c = a ++ m /\ b = m ++ d.
Proof.
  revert c. induction a as [|x a IH]; intros c E L.
  - exists c. auto.
  - destruct c as [|y c]; [simpl in L; lia|].
    cbn [app] in E. injection E as Ex E. subst y.
    destruct (IH c E) as (m & E1 & E2); [simpl in L; lia|].
    exists m. split; [simpl; congruence | exact E2].
Qed.

Lemma ci_eq_img_head tag :
  ci_eq (js "<img ") tag ->
  exists x t, tag = ch_lt :: x :: t /\ (x = 105%N \/ x = 73%N).
Proof.
  change (js "<img ") with [60%N; 105%N; 109%N; 103%N; 32%N].
  intros F. inversion F as [|a1 t1 l1 r1 H1 F1]; subst.
  inversion F1 as [|a2 t2 l2 r2 H2 F2]; subst.
  exists t2, r2. split.
  - rewrite char_eqb_true_low in H1 by reflexivity. apply N.eqb_eq in H1.
    subst t1. reflexivity.
  - unfold char_eqb, canonicalize in H2. cbn [andb] in H2.
    change ((97 <=? 105)%N && (105 <=? 122)%N) with true in H2. cbv iota in H2.
    change (105 - 32)%N with 73%N in H2.
    destruct ((97 <=? t2)%N && (t2 <=? 122)%N) eqn:C.
    + apply andb_true_iff in C. destruct C as [C1 C2].
      apply N.leb_le in C1, C2. apply N.eqb_eq in H2. left. lia.
    + apply N.eqb_eq in H2. right. congruence.
Qed.

(** X6. What [extractImage] returns is never empty and holds no quote; it
    stands in the input between two quotes, at least ten code units from the
    start: the five of the tag name, the four of the attribute name and the
    quote. *)
Theorem extractImage_result html u :
  extractImage html = Some u ->
  u <> [] /\ (forall c, In c u -> ~ is_quote c) /\
  exists s before q1 q2 after,
    html = Some s /\ s = before ++ q1 :: u ++ q2 :: after /\
    is_quote q1 /\ is_quote q2 /\ 9 <= length before.
Proof.
  destruct html as [s|]; [|discriminate].
  intros H. apply extractImage_some in H.
  destruct H as (pre & s' & attrs & Es & Hat & _).
  destruct Hat as (tag & kw & q1 & q2 & post & E & Ftag & Fkw & _ & Hq1 & Hq2 & Hu & Hnq).
  split; [exact Hu|]. split; [exact Hnq|].
  exists s, (pre ++ tag ++ attrs ++ kw), q1, q2, post.
  split; [reflexivity|]. split; [|split; [exact Hq1 | split; [exact Hq2|]]].
  - rewrite Es, E. rewrite <- !app_assoc. reflexivity.
  - rewrite !length_app, (ci_eq_length _ _ Ftag), (ci_eq_length _ _ Fkw).
    change (length (js "<img ")) with 5. change (length (js "src=")) with 4. lia.
Qed.

Lemma extractImage_result_witness :
  js "a.png" <> [] /\ (forall c, In c (js "a.png") -> ~ is_quote c) /\
  exists s before q1 q2 after,
    Some (js "<p><IMG alt='x' SRC='a.png'></p>") = Some s /\
    s = before ++ q1 :: js "a.png" ++ q2 :: after /\
    is_quote q1 /\ is_quote q2 /\ 9 <= length before.
Proof.
  apply (extractImage_result (Some (js "<p><IMG alt='x' SRC='a.png'></p>"))).
  vm_compute. reflexivity.
Defined.

Lemma img_tag_match tag attrs kw q1 u q2 trail post :
  ci_eq (js "<img ") tag -> ~ In ch_gt attrs ->
  ci_eq (js "src=") kw -> is_quote q1 -> is_quote q2 -> u <> [] ->
  (forall c, In c u -> ~ is_quote c /\ c <> ch_gt /\ c <> ch_eq) ->
  ~ In ch_gt trail -> ~ In ch_eq trail ->
  match_at true img_regex
    (tag ++ attrs ++ kw ++ q1 :: u ++ q2 :: trail ++ ch_gt :: post)
  = Some (trail ++ ch_gt :: post, Some u).
Proof.
  intros Ftag Hattrs Fkw Hq1 Hq2 Hu Hin Htg Hte.
  assert (Hnq : forall c, In c u -> ~ is_quote c) by (intros c Hc; apply (Hin c Hc)).
  set (rest := trail ++ ch_gt :: post).
  set (s' := kw ++ q1 :: u ++ q2 :: rest).
  assert (Hk : rmatch true img_src accept s' None = Some (rest, Some u))
    by (apply src_match_exact; assumption).
  rewrite match_at_img_unfold.
  assert (El : lit_strip true (js "<img ") (tag ++ attrs ++ s') = Some (attrs ++ s')).
  { apply lit_strip_some. exists tag. split; [reflexivity | exact Ftag]. }
  rewrite El. apply Forall_not_gt in Hattrs as Fa.
  destruct (star_match_intro true (CNoneOf [ch_gt])
              (fun x => rmatch true img_src accept x None) attrs s' _ Fa Hk)
    as [r Hr].
  rewrite Hr. f_equal. apply star_match_some in Hr.
  destruct Hr as (a & s'' & E & Fa' & Hk' & Hmax). cbv beta in Hk', Hmax.
  destruct (lt_eq_lt_dec (length a) (length attrs)) as [[L|L]|L].
  - rewrite (Hmax attrs s' eq_refl Fa L) in Hk. discriminate Hk.
  - apply app_same_length in E; [|symmetry; exact L].
    destruct E as [_ E]. subst s''. congruence.
  - exfalso. destruct (app_prefix_eq attrs s' a s'' E) as (m & Ea & Es); [lia|].
    assert (Hno : rmatch true img_src accept s'' None = None).
    { apply (no_later_src kw (q1 :: u ++ q2 :: trail) post m s'' Fkw).
      - intros [Eq|Hi].
        + destruct Hq1 as [Q|Q]; rewrite Q in Eq; discriminate Eq.
        + apply in_app_or in Hi. destruct Hi as [Hi|[Eq|Hi]].
          * destruct (Hin _ Hi) as (_ & _ & Hne). apply Hne. reflexivity.
          * destruct Hq2 as [Q|Q]; rewrite Q in Eq; discriminate Eq.
          * apply Hte. exact Hi.
      - rewrite <- Es. unfold s', rest. cbn [app]. rewrite <- app_assoc.
        reflexivity.
      - intros Em. subst m. rewrite app_nil_r in Ea. subst a. lia.
      - apply Forall_not_gt in Fa'. intros Hi. apply Fa'. rewrite Ea.
        apply in_or_app. right. exact Hi. }
    congruence.
Qed.

(** X7. An image tag is read back. After a text without [<]: the letters of
    [<img] in any case and a space, any attributes without [>], the letters
    of [src=] in any case, a quote, a non-empty URL without quote, [>] or
    [=], a quote, and the end of the tag with no [=] in between; the result
    is that URL, whatever comes before [src=] inside the tag and whatever
    follows the tag. *)
Theorem extractImage_reads_tag pre tag attrs kw q1 u q2 trail post :
  ~ In ch_lt pre ->
  ci_eq (js "<img ") tag -> ~ In ch_gt attrs ->
  ci_eq (js "src=") kw -> is_quote q1 -> is_quote q2 -> u <> [] ->
  (forall c, In c u -> ~ is_quote c /\ c <> ch_gt /\ c <> ch_eq) ->
  ~ In ch_gt trail -> ~ In ch_eq trail ->
  extractImage
    (Some (pre ++ tag ++ attrs ++ kw ++ q1 :: u ++ q2 :: trail ++ ch_gt :: post))
  = Some u.
Proof.
  intros Hpre Ftag Hattrs Fkw Hq1 Hq2 Hu Hin Htg Hte.
  rewrite extractImage_string, (exec_clean_prefix pre _ Hpre).
  rewrite (exec_here _ _ _ _
             (img_tag_match tag attrs kw q1 u q2 trail post
                Ftag Hattrs Fkw Hq1 Hq2 Hu Hin Htg Hte)).
  reflexivity.
Qed.

Lemma extractImage_reads_tag_witness :
  extractImage
    (Some (js "Text " ++ js "<IMG " ++ js "class='hero' data-src='lazy.gif' "
           ++ js "Src=" ++ ch_dquote :: js "https://x.example/a.png"
           ++ ch_dquote :: js " /" ++ ch_gt :: js "<img src='b.png'>"))
  = Some (js "https://x.example/a.png").
Proof.
  apply (extractImage_reads_tag (js "Text ") (js "<IMG ")
           (js "class='hero' data-src='lazy.gif' ") (js "Src=") ch_dquote
           (js "https://x.example/a.png") ch_dquote (js " /")
           (js "<img src='b.png'>")).
  - vm_compute. intuition discriminate.
  - repeat constructor.
  - vm_compute. intuition discriminate.
  - repeat constructor.
  - left. reflexivity.
  - left. reflexivity.
  - discriminate.
  - intros c Hc. vm_compute in Hc. unfold is_quote, ch_dquote, ch_squote, ch_gt, ch_eq.
    repeat (destruct Hc as [Hc|Hc]; [subst c; repeat split; intros H; try destruct H as [H|H]; discriminate H|]).
    destruct Hc.
  - vm_compute. intuition discriminate.
  - vm_compute. intuition discriminate.
Defined.

Lemma lt_closed_next o tail pre x r :
  lt_closed o = true -> ~ In ch_lt tail ->
  o ++ tail = pre ++ ch_lt :: x :: r ->
  x = ch_gt \/ exists tl, tail = x :: tl.
Proof.
  intros Ho Htail. revert pre. induction o as [|c o IH]; intros pre E.
  - exfalso. apply Htail. cbn [app] in E. rewrite E.
    apply in_or_app. right. left. reflexivity.
  - cbn [lt_closed] in Ho. apply andb_true_iff in Ho. destruct Ho as [Hc Ho].
    destruct pre as [|p pre]; cbn [app] in E; injection E as Ec E.
    + subst c. change (ch_lt =? ch_lt)%N with true in Hc.
      destruct o as [|d o]; cbn [app] in E.
      * right. exists r. exact E.
      * injection E as Ed _. apply N.eqb_eq in Hc. left. congruence.
    + exact (IH Ho pre E).
Qed.

Lemma no_image_in_closed o tail :
  lt_closed o = true -> ~ In ch_lt tail ->
  (forall tl, tail <> 105%N :: tl) -> (forall tl, tail <> 73%N :: tl) ->
  extractImage (Some (o ++ tail)) = None.
Proof.
  intros Ho Htail H105 H73. apply extractImage_none.
  intros (pre & s' & attrs & u & E & Hat).
  destruct Hat as (tag & kw & q1 & q2 & post & Es & Ftag & _).
  destruct (ci_eq_img_head tag Ftag) as (x & t & Et & Hx).
  subst s' tag. cbn [app] in E.
  destruct (lt_closed_next o tail pre x _ Ho Htail E) as [Eg|[tl Etl]].
  - destruct Hx as [Hx|Hx]; rewrite Hx in Eg; discriminate Eg.
  - destruct Hx as [Hx|Hx]; subst x; [exact (H105 tl Etl) | exact (H73 tl Etl)].
Qed.

Lemma snippet_has_no_image text : extractImage (Some (snippet_of text)) = None.
Proof.
  unfold snippet_of. apply no_image_in_closed.
  - apply lt_closed_firstn, strip_tags_lt_closed.
  - vm_compute. intuition discriminate.
  - intros tl. vm_compute. discriminate.
  - intros tl. vm_compute. discriminate.
Qed.

(** X8. The text that the tag removal leaves holds no image for
    [extractImage], and neither does the snippet of an article. *)
Theorem stripped_text_has_no_image text :
  extractImage (Some (strip_tags text)) = None /\
  extractImage (Some (snippet_of text)) = None.
Proof.
  split; [|apply snippet_has_no_image].
  rewrite <- (app_nil_r (strip_tags text)).
  apply no_image_in_closed.
  - apply strip_tags_lt_closed.
  - intros [].
  - discriminate.
  - discriminate.
Qed.

(** * More on the handler *)

Lemma aggregate_inr parseURL feeds results e :
  aggregate parseURL feeds results = inr e ->
  exists f, In f feeds /\ parseURL (Feed.url f) = Rejected e.
Proof.
  revert results. induction feeds as [|g rest IH]; intros results H.
  - discriminate H.
  - cbn [aggregate] in H.
    destruct (parseURL (Feed.url g)) as [p|e'] eqn:Hg.
    + destruct (IH _ H) as (f & Hf & Hr). exists f. split; [right; exact Hf | exact Hr].
    + injection H as H. subst e'. exists g. split; [left; reflexivity | exact Hg].
Qed.

(** X9. The status of the response is 200 or 500, and the body is a
    mapping exactly when the status is 200. A status 200 needs the fetch of
    every configured source to be fulfilled: one fetch that throws gives
    500. *)
Theorem GET_status parseURL :
  (Response.status (GET parseURL) = 200 \/ Response.status (GET parseURL) = 500) /\
  (Response.status (GET parseURL) = 200 <->
   exists results, Response.body (GET parseURL) = FeedsBody results) /\
  (Response.status (GET parseURL) = 200 ->
   forall f, In f FEEDS -> fulfilled parseURL f) /\
  ((exists f e, In f FEEDS /\ parseURL (Feed.url f) = Rejected e) ->
   Response.status (GET parseURL) = 500).
Proof.
  unfold GET. destruct (aggregate parseURL FEEDS []) as [results|e] eqn:E;
    cbn [Response.status Response.body].
  - pose proof (aggregate_inl parseURL FEEDS [] results E) as Hall.
    split; [left; reflexivity|]. split; [|split].
    + split; [intros _; exists results; reflexivity | reflexivity].
    + intros _. exact Hall.
    + intros (f & e & Hf & Hr). destruct (Hall f Hf) as [p Hp]. congruence.
  - split; [right; reflexivity|]. split; [|split].
    + split; [discriminate | intros [results H]; discriminate H].
    + discriminate.
    + reflexivity.
Qed.

Lemma FEEDS_names_nonempty f : In f FEEDS -> Feed.name f <> [].
Proof.
  intros H. cbv [FEEDS In] in H.
  repeat (destruct H as [H|H]; [subst f; vm_compute; discriminate|]).
  destruct H.
Qed.

Lemma bucket_length parseURL f : length (bucket parseURL f) <= 10.
Proof.
  unfold bucket. destruct (parseURL (Feed.url f)) as [p|e]; [|simpl; lia].
  rewrite length_map, length_firstn. lia.
Qed.

Lemma channel_nonempty feed parsed item :
  Feed.name feed <> [] -> FeedItem.channel (build_item feed parsed item) <> [].
Proof.
  intros H. cbn [build_item FeedItem.channel]. unfold js_or, truthy.
  destruct (Item.creator item) as [[|c s]|]; cbn [js_or_string]; try discriminate;
    destruct (Parsed.title parsed) as [[|c' s']|]; try discriminate; exact H.
Qed.

(** X10. In a successful response every list has at most ten articles, and
    every article has a channel that is not empty and a snippet of 3 to 228
    code units. *)
Theorem response_well_formed parseURL results k arts :
  GET parseURL = Response.mk 200 (FeedsBody results) ->
  obj_get k results = Some arts ->
  length arts <= 10 /\
  forall a, In a arts ->
    FeedItem.channel a <> [] /\
    3 <= length (FeedItem.contentSnippet a) <= 228.
Proof.
  intros HG Hk. split.
  - apply GET_ok_inv in HG. destruct HG as [_ ->].
    apply fold_store_values in Hk. destruct Hk as [Hk|(f & _ & ->)];
      [discriminate Hk | apply bucket_length].
  - intros a Ha.
    destruct (GET_articles parseURL results k arts a HG Hk Ha)
      as (feed & parsed & item & Hf & _ & _ & ->).
    split; [exact (channel_nonempty feed parsed item (FEEDS_names_nonempty feed Hf))|].
    cbn [build_item FeedItem.contentSnippet].
    destruct (snippet_of_shape (desc item)) as (_ & Hle & _).
    split; [|exact Hle].
    unfold snippet_of. rewrite length_app. change (length ellipsis) with 3. lia.
Qed.

Lemma response_well_formed_witness :
  length (List.map (build_item feed_techcrunch (sample_parsed 12))
            (firstn 10 (repeat sample_item 12))) <= 10 /\
  forall a,
    In a (List.map (build_item feed_techcrunch (sample_parsed 12))
            (firstn 10 (repeat sample_item 12))) ->
    FeedItem.channel a <> [] /\
    3 <= length (FeedItem.contentSnippet a) <= 228.
Proof.
  apply (response_well_formed all_fulfilled
           (fold_left (store all_fulfilled) FEEDS []) (js "TechCrunch")).
  - reflexivity.
  - vm_compute. reflexivity.
Defined.

(** X11. For the loop over any list of sources, when it runs to its end:
    of the sources that share a name other than [__proto__], the last one
    is the one whose articles the mapping holds under that name. *)
Theorem aggregate_last_wins parseURL pre f post results parsed :
  aggregate parseURL (pre ++ f :: post) [] = inl results ->
  parseURL (Feed.url f) = Fulfilled parsed ->
  Feed.name f <> js "__proto__" ->
  (forall g, In g post -> Feed.name g <> Feed.name f) ->
  obj_get (Feed.name f) results
  = Some (List.map (build_item f parsed) (firstn 10 (Parsed.items parsed))).
Proof.
  intros Hagg Hp Hproto Hpost.
  pose proof (aggregate_inl parseURL _ [] results Hagg) as Hall.
  rewrite (aggregate_fulfilled parseURL _ [] Hall) in Hagg.
  injection Hagg as <-.
  rewrite fold_left_app. cbn [fold_left].
  rewrite fold_store_get_other.
  - rewrite obj_get_store, (jsstring_eqb_neq _ _ Hproto), jsstring_eqb_refl.
    unfold bucket. rewrite Hp. reflexivity.
  - intros Hin. apply in_map_iff in Hin. destruct Hin as (g & Eg & Hg).
    exact (Hpost g Hg Eg).
Qed.

Lemma aggregate_last_wins_witness :
  obj_get (Feed.name feed_A_again)
    (fold_left (store two_sources) ([feed_A] ++ feed_A_again :: [feed_B]) [])
  = Some (List.map (build_item feed_A_again (sample_parsed 3))
            (firstn 10 (Parsed.items (sample_parsed 3)))).
Proof.
  apply (aggregate_last_wins two_sources [feed_A] feed_A_again [feed_B]).
  - reflexivity.
  - reflexivity.
  - vm_compute. discriminate.
  - intros g [<-|[]]. vm_compute. discriminate.
Defined.

(** X12. For the loop over any list of sources whose names are distinct,
    none of them an array index or [__proto__], when it runs to its end: the
    keys of the mapping are the names in the order of the list, and each
    name holds the articles of the first ten entries of its source. *)
Theorem aggregate_distinct_names parseURL feeds results :
  aggregate parseURL feeds [] = inl results ->
  NoDup (List.map Feed.name feeds) ->
  (forall f, In f feeds ->
     Feed.name f <> js "__proto__" /\ array_index (Feed.name f) = None) ->
  own_keys results = List.map Feed.name feeds /\
  (forall f parsed, In f feeds -> parseURL (Feed.url f) = Fulfilled parsed ->
     obj_get (Feed.name f) results
     = Some (List.map (build_item f parsed) (firstn 10 (Parsed.items parsed)))).
Proof.
  intros Hagg Hnd Hplain.
  pose proof (aggregate_inl parseURL _ [] results Hagg) as Hall.
  rewrite (aggregate_fulfilled parseURL _ [] Hall) in Hagg.
  injection Hagg as <-.
  assert (Hk : List.map fst (fold_left (store parseURL) feeds [])
               = List.map Feed.name feeds).
  { apply (fold_store_keys parseURL feeds []); [exact Hnd|].
    intros f Hf. exact (proj1 (Hplain f Hf)). }
  split.
  - rewrite own_keys_plain; [exact Hk|].
    intros k Hin. rewrite Hk in Hin. apply in_map_iff in Hin.
    destruct Hin as (f & <- & Hf). exact (proj2 (Hplain f Hf)).
  - intros f parsed Hf Hp.
    rewrite (fold_store_get parseURL feeds [] f Hnd Hf (proj1 (Hplain f Hf))).
    unfold bucket. rewrite Hp. reflexivity.
Qed.

Lemma aggregate_distinct_names_witness :
  own_keys (fold_left (store two_sources) [feed_A; feed_B] [])
  = List.map Feed.name [feed_A; feed_B] /\
  (forall f parsed, In f [feed_A; feed_B] ->
     two_sources (Feed.url f) = Fulfilled parsed ->
     obj_get (Feed.name f) (fold_left (store two_sources) [feed_A; feed_B] [])
     = Some (List.map (build_item f parsed) (firstn 10 (Parsed.items parsed)))).
Proof.
  apply (aggregate_distinct_names two_sources [feed_A; feed_B]).
  - reflexivity.
  - vm_compute. repeat (constructor; [cbv [In]; intuition discriminate|]). constructor.
  - intros f [<-|[<-|[]]]; split; vm_compute; (discriminate || reflexivity).
Defined.

(** * The page *)

Section PageFacts.
Context {V W : Type}.

Lemma obj_get_map_values (g : V -> W) k (o : JsRecord V) :
  obj_get k (List.map (fun kv => (fst kv, g (snd kv))) o)
  = option_map g (obj_get k o).
Proof.
  induction o as [|[k0 v0] o IH]; [reflexivity|].
  cbn [List.map obj_get fst snd]. destruct (jsstring_eqb k0 k); [reflexivity | exact IH].
Qed.

Lemma keys_map_values (g : V -> W) (o : JsRecord V) :
  List.map fst (List.map (fun kv => (fst kv, g (snd kv))) o) = List.map fst o.
Proof. rewrite map_map. reflexivity. Qed.

Lemma flat_map_agree (A B : Type) (f g : A -> list B) l :
  (forall x, In x l -> f x = g x) -> flat_map f l = flat_map g l.
Proof.
  induction l as [|x l IH]; intros H; [reflexivity|].
  cbn [flat_map]. rewrite (H x (or_introl eq_refl)), IH; [reflexivity|].
  intros y Hy. apply H. right. exact Hy.
Qed.

Lemma own_entries_plain (o : JsRecord V) :
  NoDup (List.map fst o) ->
  (forall k, In k (List.map fst o) -> array_index k = None) ->
  own_entries o = o.
Proof.
  intros Hnd Hplain. unfold own_entries. rewrite (own_keys_plain o Hplain).
  clear Hplain. induction o as [|[k v] o IH]; [reflexivity|].
  cbn [List.map fst] in Hnd. apply NoDup_cons_iff in Hnd. destruct Hnd as [Hk Hnd].
  cbn [List.map fst flat_map obj_get]. rewrite jsstring_eqb_refl. cbn [app].
  f_equal. rewrite <- (IH Hnd) at 2.
  apply flat_map_agree. intros k' Hin.
  cbn [obj_get]. rewrite (jsstring_eqb_neq k k'); [reflexivity|].
  intros E. subst k'. exact (Hk Hin).
Qed.
End PageFacts.

Lemma fulfilled_store_plain parseURL :
  NoDup (List.map fst (fold_left (store parseURL) FEEDS [])) /\
  List.map fst (fold_left (store parseURL) FEEDS []) = List.map Feed.name FEEDS /\
  (forall k, In k (List.map fst (fold_left (store parseURL) FEEDS [])) ->
     array_index k = None).
Proof.
  assert (Hk : List.map fst (fold_left (store parseURL) FEEDS [])
               = List.map Feed.name FEEDS).
  { apply (fold_store_keys parseURL FEEDS []); [exact FEEDS_names_NoDup|].
    intros f Hf. exact (proj1 (FEEDS_names_plain f Hf)). }
  split; [rewrite Hk; exact FEEDS_names_NoDup|]. split; [exact Hk|].
  intros k Hin. rewrite Hk in Hin. apply in_map_iff in Hin.
  destruct Hin as (f & <- & Hf). exact (proj2 (FEEDS_names_plain f Hf)).
Qed.

(** X13. When the response is a mapping (status 200), the callback of the
    page stores one source name for each configured source, in the order
    of the list, selects the first one and turns the placeholders off; the
    list that it stores under the name of a source has as many articles as
    the smaller of 10 and the number of entries of that source. *)
Theorem page_state_after_success parseURL results :
  GET parseURL = Response.mk 200 (FeedsBody results) ->
  Home.sources (page_after parseURL) = List.map Feed.name FEEDS /\
  Home.selected (page_after parseURL) = js "Google News" /\
  Home.loading (page_after parseURL) = false /\
  (forall f parsed, In f FEEDS -> parseURL (Feed.url f) = Fulfilled parsed ->
     exists arts,
       obj_get (Feed.name f) (Home.feeds (page_after parseURL)) = Some arts /\
       length arts = Nat.min 10 (length (Parsed.items parsed))).
Proof.
  intros HG. apply GET_ok_inv in HG as Hinv. destruct Hinv as [Hall _].
  unfold page_after. rewrite (GET_fulfilled parseURL Hall).
  cbn [data_feeds Response.body].
  destruct (fulfilled_store_plain parseURL) as (Hnd & Hk & Hplain).
  rewrite (own_entries_plain _ Hnd Hplain).
  set (o := fold_left (store parseURL) FEEDS []) in *.
  assert (Hs : own_keys (List.map (fun kv => (fst kv, List.map received_item (snd kv))) o)
               = List.map Feed.name FEEDS).
  { rewrite own_keys_plain; rewrite keys_map_values; [exact Hk | exact Hplain]. }
  cbn [on_data Home.sources Home.selected Home.loading Home.feeds]. rewrite Hs.
  split; [reflexivity|]. split; [reflexivity|]. split; [reflexivity|].
  intros f parsed Hf Hp.
  rewrite obj_get_map_values. unfold o.
  rewrite (fold_store_get parseURL FEEDS [] f FEEDS_names_NoDup Hf
             (proj1 (FEEDS_names_plain f Hf))).
  cbn [option_map]. unfold bucket. rewrite Hp.
  eexists. split; [reflexivity|].
  rewrite !length_map, length_firstn. reflexivity.
Qed.

Lemma page_state_after_success_witness :
  Home.sources (page_after all_fulfilled) = List.map Feed.name FEEDS /\
  Home.selected (page_after all_fulfilled) = js "Google News" /\
  Home.loading (page_after all_fulfilled) = false /\
  (forall f parsed, In f FEEDS -> all_fulfilled (Feed.url f) = Fulfilled parsed ->
     exists arts,
       obj_get (Feed.name f) (Home.feeds (page_after all_fulfilled)) = Some arts /\
       length arts = Nat.min 10 (length (Parsed.items parsed))).
Proof.
  apply (page_state_after_success all_fulfilled
           (fold_left (store all_fulfilled) FEEDS [])).
  reflexivity.
Defined.

(** X14. When the fetch of a source throws, the page shows no tab and no
    card, whichever tab name is selected, and no placeholder either: the
    error of the response is not shown. *)
Theorem page_hides_error parseURL :
  (exists f e, In f FEEDS /\ parseURL (Feed.url f) = Rejected e) ->
  Home.sources (page_after parseURL) = [] /\
  Home.selected (page_after parseURL) = [] /\
  Home.loading (page_after parseURL) = false /\
  cards (page_after parseURL) = [] /\
  (forall src, cards (select src (page_after parseURL)) = []).
Proof.
  intros H. apply first_rejected in H.
  destruct H as (pre & f & post & e & E & Hpre & Hf).
  unfold page_after, GET. rewrite E.
  rewrite (aggregate_rejected parseURL pre f post e [] Hpre Hf).
  repeat split.
Qed.

Lemma page_hides_error_witness :
  Home.sources (page_after wired_down) = [] /\
  Home.selected (page_after wired_down) = [] /\
  Home.loading (page_after wired_down) = false /\
  cards (page_after wired_down) = [] /\
  (forall src, cards (select src (page_after wired_down)) = []).
Proof.
  apply (page_hides_error wired_down).
  exists feed_wired, (JsError.mk (js "Status code 503")).
  split; [vm_compute; tauto | reflexivity].
Defined.


(** * The image of an article, end to end *)

(** X16. An entry whose full content is a text without [<] followed by an
    image tag as in X7 gives an article with that image, whatever its
    summary and the image of the channel are; the snippet of the article
    holds no image. *)
Theorem article_image_from_content
  feed parsed item pre tag attrs kw q1 u q2 trail post :
  Item.contentEncoded item
  = Some (pre ++ tag ++ attrs ++ kw ++ q1 :: u ++ q2 :: trail ++ ch_gt :: post) ->
  ~ In ch_lt pre ->
  ci_eq (js "<img ") tag -> ~ In ch_gt attrs ->
  ci_eq (js "src=") kw -> is_quote q1 -> is_quote q2 -> u <> [] ->
  (forall c, In c u -> ~ is_quote c /\ c <> ch_gt /\ c <> ch_eq) ->
  ~ In ch_gt trail -> ~ In ch_eq trail ->
  FeedItem.image (build_item feed parsed item) = Some u /\
  extractImage (Some (FeedItem.contentSnippet (build_item feed parsed item)))
  = None.
Proof.
  intros Hce Hpre Ftag Hattrs Fkw Hq1 Hq2 Hu Hin Htg Hte.
  split; [|apply snippet_has_no_image].
  assert (Hx : extractImage
                 (Some (pre ++ tag ++ attrs ++ kw ++ q1 :: u ++ q2 :: trail
                        ++ ch_gt :: post)) = Some u).
  { rewrite extractImage_string, (exec_clean_prefix pre _ Hpre).
    rewrite (exec_here _ _ _ _
               (img_tag_match tag attrs kw q1 u q2 trail post
                  Ftag Hattrs Fkw Hq1 Hq2 Hu Hin Htg Hte)).
    reflexivity. }
  assert (Hd : desc item
               = pre ++ tag ++ attrs ++ kw ++ q1 :: u ++ q2 :: trail ++ ch_gt :: post).
  { unfold desc. rewrite Hce.
    destruct (pre ++ tag ++ attrs ++ kw ++ q1 :: u ++ q2 :: trail ++ ch_gt :: post)
      as [|c s] eqn:E; [|reflexivity].
    apply app_eq_nil in E. destruct E as [_ E].
    apply app_eq_nil in E. destruct E as [E _].
    destruct (ci_eq_img_head tag Ftag) as (x & t & Et & _). congruence. }
  cbn [build_item FeedItem.image]. unfold img.
  assert (Hi : extractImage (Some (desc item)) = Some u)
    by (rewrite Hd; exact Hx).
  rewrite Hi. destruct u as [|c s]; [congruence | reflexivity].
Qed.

Lemma article_image_from_content_witness :
  FeedItem.image
    (build_item feed_techcrunch (parsed_with_image (Some url_C))
       (entry_with
          (js "Text " ++ js "<img " ++ js "alt='x' " ++ js "src="
           ++ ch_squote :: url_A ++ ch_squote :: js " /" ++ ch_gt :: js " more")
          (js "Text " ++ img_tag ch_dquote url_B)))
  = Some url_A /\
  extractImage
    (Some (FeedItem.contentSnippet
       (build_item feed_techcrunch (parsed_with_image (Some url_C))
          (entry_with
             (js "Text " ++ js "<img " ++ js "alt='x' " ++ js "src="
              ++ ch_squote :: url_A ++ ch_squote :: js " /" ++ ch_gt :: js " more")
             (js "Text " ++ img_tag ch_dquote url_B)))))
  = None.
Proof.
  apply (article_image_from_content feed_techcrunch
           (parsed_with_image (Some url_C)) _
           (js "Text ") (js "<img ") (js "alt='x' ") (js "src=") ch_squote
           url_A ch_squote (js " /") (js " more")).
  - reflexivity.
  - vm_compute. intuition discriminate.
  - repeat constructor.
  - vm_compute. intuition discriminate.
  - repeat constructor.
  - right. reflexivity.
  - right. reflexivity.
  - discriminate.
  - intros c Hc. vm_compute in Hc. unfold is_quote, ch_dquote, ch_squote, ch_gt, ch_eq.
    repeat (destruct Hc as [Hc|Hc]; [subst c; repeat split; intros H; try destruct H as [H|H]; discriminate H|]).
    destruct Hc.
  - vm_compute. intuition discriminate.
  - vm_compute. intuition discriminate.
Defined.

(** * The handler on every output of the parser *)

Lemma extractImage_any_val_of h :
  extractImage_any (val_of h) = inl (val_of (extractImage h)).
Proof.
  destruct h as [[|c s]|]; reflexivity.
Qed.

Lemma val_of_truthy h : to_boolean (val_of h) = truthy h.
Proof. destruct h as [[|c s]|]; reflexivity. Qed.

Lemma val_or_val_of a b : val_or (val_of a) (val_of b) = val_of (js_or a b).
Proof. unfold val_or, js_or. rewrite val_of_truthy. destruct (truthy a); reflexivity. Qed.

Lemma val_or_string a b :
  val_or (val_of a) (JsString b) = JsString (js_or_string a b).
Proof. destruct a as [[|c s]|]; reflexivity. Qed.

Lemma val_nullish_val_of a b :
  val_nullish (val_of a) (JsString b) = JsString (js_nullish a b).
Proof. destruct a; reflexivity. Qed.

Lemma channelImage_raw_typed parsed :
  channelImage_raw (raw_parsed parsed) = inl (val_of (channelImage parsed)).
Proof.
  unfold channelImage_raw, channelImage. cbn [raw_parsed RawParsed.image RawParsed.description].
  destruct (Parsed.image parsed) as [[url]|]; cbn [raw_image optional_url Image.url].
  - change (obj_get (js "url") [(js "url", val_of url)]) with (Some (val_of url)).
    cbv iota. rewrite val_of_truthy, extractImage_any_val_of.
    unfold js_or. destruct (truthy url); reflexivity.
  - cbn [to_boolean]. rewrite extractImage_any_val_of. reflexivity.
Qed.

Lemma desc_raw_typed item : desc_raw (raw_item item) = JsString (desc item).
Proof.
  unfold desc_raw, desc. cbn [raw_item RawItem.contentEncoded RawItem.contentSnippet
    RawItem.content_encoded RawItem.description].
  rewrite !val_or_val_of. apply val_or_string.
Qed.

Lemma img_raw_typed parsed item :
  img_raw (val_of (channelImage parsed)) (raw_item item)
  = inl (val_of (img parsed item)).
Proof.
  unfold img_raw, img. rewrite desc_raw_typed.
  change (JsString (desc item)) with (val_of (Some (desc item))).
  rewrite extractImage_any_val_of.
  cbn [raw_item RawItem.contentSnippet]. rewrite extractImage_any_val_of.
  pose proof (extractImage_nonempty (Some (desc item))) as Ha.
  destruct (extractImage (Some (desc item))) as [[|c a]|].
  - exfalso. apply Ha. reflexivity.
  - reflexivity.
  - cbn [val_of to_boolean]. unfold val_or at 2. cbn [to_boolean].
    rewrite val_or_val_of. reflexivity.
Qed.

Lemma build_raw_typed feed parsed item :
  build_raw feed (raw_parsed parsed) (val_of (channelImage parsed)) (raw_item item)
  = inl (raw_feed_item (build_item feed parsed item)).
Proof.
  unfold build_raw. rewrite img_raw_typed, desc_raw_typed.
  cbn [raw_item raw_parsed RawItem.title RawItem.link RawItem.pubDate RawItem.creator
       RawParsed.title].
  rewrite !val_nullish_val_of, val_or_val_of, val_or_string.
  reflexivity.
Qed.

Lemma map_or_throw_total (A B C : Type) (f : A -> B + JsError.t)
  (h : C -> A) (g : C -> B) l :
  (forall x, In x l -> f (h x) = inl (g x)) ->
  map_or_throw f (List.map h l) = inl (List.map g l).
Proof.
  induction l as [|x l IH]; intros H; [reflexivity|].
  cbn [map_or_throw List.map]. rewrite (H x (or_introl eq_refl)), IH; [reflexivity|].
  intros y Hy. apply H. right. exact Hy.
Qed.

Lemma articles_raw_typed feed parsed :
  articles_raw feed (raw_parsed parsed)
  = inl (List.map raw_feed_item
           (List.map (build_item feed parsed) (firstn 10 (Parsed.items parsed)))).
Proof.
  unfold articles_raw. rewrite channelImage_raw_typed.
  cbn [raw_parsed RawParsed.items]. rewrite firstn_map, map_map.
  apply map_or_throw_total. intros x _. apply build_raw_typed.
Qed.

Lemma obj_assign_map_values (V W : Type) (g : V -> W) k v (o : JsRecord V) :
  obj_assign k (g v) (List.map (fun kv => (fst kv, g (snd kv))) o)
  = List.map (fun kv => (fst kv, g (snd kv))) (obj_assign k v o).
Proof.
  unfold obj_assign. destruct (jsstring_eqb k (js "__proto__")); [reflexivity|].
  induction o as [|[k0 v0] o IH]; [reflexivity|].
  cbn [List.map obj_put fst snd]. destruct (jsstring_eqb k0 k); [reflexivity|].
  cbn [List.map fst snd]. rewrite IH. reflexivity.
Qed.

Lemma aggregate_raw_typed parseURL feeds acc :
  aggregate_raw (raw_oracle parseURL) feeds (raw_results acc)
  = match aggregate parseURL feeds acc with
    | inl results => inl (raw_results results)
    | inr e => inr e
    end.
Proof.
  revert acc. induction feeds as [|f rest IH]; intros acc; [reflexivity|].
  cbn [aggregate_raw aggregate]. unfold raw_oracle at 1.
  destruct (parseURL (Feed.url f)) as [parsed|e]; cbn [raw_settled]; [|reflexivity].
  rewrite articles_raw_typed. unfold raw_results at 1.
  rewrite (obj_assign_map_values _ _ (List.map raw_feed_item)).
  apply IH.
Qed.


Lemma extractImage_any_inr v e :
  extractImage_any v = inr e <->
  truthy_non_string v = true /\ e = match_type_error.
Proof.
  unfold extractImage_any, truthy_non_string.
  destruct v as [| |b|n|s|elems|props]; cbn [to_boolean];
    try (split; [discriminate | intros [H _]; discriminate H]).
  - destruct b; split; try discriminate.
    + intros H. injection H as <-. auto.
    + intros [_ ->]. reflexivity.
    + intros [H _]. discriminate H.
  - destruct (negb (n =? 0)%N); split; try discriminate.
    + intros H. injection H as <-. auto.
    + intros [_ ->]. reflexivity.
    + intros [H _]. discriminate H.
  - destruct s; split; try discriminate; intros [H _]; discriminate H.
  - split; [intros H; injection H as <-; auto | intros [_ ->]; reflexivity].
  - split; [intros H; injection H as <-; auto | intros [_ ->]; reflexivity].
Qed.

Lemma desc_raw_cases item :
  truthy_non_string (desc_raw item) = true \/
  exists text, desc_raw item = JsString text.
Proof.
  unfold desc_raw.
  set (v := val_or
              (val_or
                 (val_or (RawItem.contentEncoded item) (RawItem.contentSnippet item))
                 (RawItem.content_encoded item))
              (RawItem.description item)).
  unfold val_or. destruct (to_boolean v) eqn:E; [|right; exists []; reflexivity].
  destruct v as [| |b|n|s|elems|props]; try (left; exact E).
  right. exists s. reflexivity.
Qed.

Lemma build_raw_inr feed parsed channel_image item e :
  build_raw feed parsed channel_image item = inr e <->
  e = match_type_error /\
  (truthy_non_string (desc_raw item) = true \/
   exists text,
     desc_raw item = JsString text /\ extractImage (Some text) = None /\
     truthy_non_string (RawItem.contentSnippet item) = true).
Proof.
  unfold build_raw, img_raw.
  destruct (desc_raw_cases item) as [Hd|[text Hd]].
  - assert (Ht : extractImage_any (desc_raw item) = inr match_type_error)
      by (apply extractImage_any_inr; auto).
    rewrite Ht. split.
    + intros H. injection H as <-. auto.
    + intros [-> _]. reflexivity.
  - rewrite Hd. change (JsString text) with (val_of (Some text)).
    rewrite extractImage_any_val_of. cbn [val_of truthy_non_string].
    pose proof (extractImage_nonempty (Some text)) as Hne.
    destruct (extractImage (Some text)) as [[|c a]|] eqn:Ex.
    + exfalso. apply Hne. reflexivity.
    + cbn [val_of to_boolean]. split; [discriminate|].
      intros [_ [H|(t & Ht & H & _)]]; [discriminate H|].
      injection Ht as <-. congruence.
    + cbn [val_of to_boolean].
      destruct (extractImage_any (RawItem.contentSnippet item)) as [b|e'] eqn:Eb.
      * split; [discriminate|].
        intros [He [H|(t & _ & _ & H)]]; [discriminate H|].
        assert (Hx : extractImage_any (RawItem.contentSnippet item) = inr e)
          by (apply extractImage_any_inr; auto).
        congruence.
      * apply extractImage_any_inr in Eb. destruct Eb as [Hs ->]. split.
        -- intros H. injection H as <-. split; [reflexivity|].
           right. exists text. auto.
        -- intros [-> _]. reflexivity.
Qed.

Lemma val_or_truthy a b : to_boolean a = true -> val_or a b = a.
Proof. intros H. unfold val_or. rewrite H. reflexivity. Qed.

(** X18. The callback throws exactly when the resolved description is
    truthy and not a string, or when it is a string in which
    [extractImage] finds nothing and the summary is truthy and not a
    string; what it throws is the TypeError of the call of [html.match]. An
    entry whose mapped full content is truthy and not a string is such a
    case. *)
Theorem callback_throws feed parsed channel_image item :
  (forall e,
     build_raw feed parsed channel_image item = inr e <->
     e = match_type_error /\
     (truthy_non_string (desc_raw item) = true \/
      exists text,
        desc_raw item = JsString text /\ extractImage (Some text) = None /\
        truthy_non_string (RawItem.contentSnippet item) = true)) /\
  (truthy_non_string (RawItem.contentEncoded item) = true ->
   build_raw feed parsed channel_image item = inr match_type_error).
Proof.
  split; [intros e; apply build_raw_inr|].
  intros H. apply build_raw_inr. split; [reflexivity|]. left.
  assert (Ht : to_boolean (RawItem.contentEncoded item) = true).
  { destruct (RawItem.contentEncoded item); try exact H. discriminate H. }
  unfold desc_raw.
  rewrite (val_or_truthy _ (RawItem.contentSnippet item) Ht).
  rewrite (val_or_truthy _ (RawItem.content_encoded item) Ht).
  rewrite (val_or_truthy _ (RawItem.description item) Ht).
  rewrite (val_or_truthy _ (JsString []) Ht).
  exact H.
Qed.

Lemma callback_throws_witness :
  build_raw feed_wired attribute_parsed JsUndefined attribute_item
  = inr match_type_error.
Proof.
  apply (proj2 (callback_throws feed_wired attribute_parsed JsUndefined
                  attribute_item)).
  reflexivity.
Defined.

Lemma map_or_throw_inr (A B : Type) (f : A -> B + JsError.t) l e :
  map_or_throw f l = inr e -> exists x, In x l /\ f x = inr e.
Proof.
  induction l as [|x l IH]; cbn [map_or_throw]; [discriminate|].
  destruct (f x) as [y|e'] eqn:Ex.
  - destruct (map_or_throw f l) as [ys|e''] eqn:El; [discriminate|].
    intros H. injection H as <-. destruct (IH eq_refl) as (z & Hz & Ez).
    exists z. split; [right; exact Hz | exact Ez].
  - intros H. injection H as <-. exists x. split; [left; reflexivity | exact Ex].
Qed.

Lemma articles_raw_inr feed parsed e :
  articles_raw feed parsed = inr e -> e = match_type_error.
Proof.
  unfold articles_raw, channelImage_raw.
  destruct (to_boolean (optional_url (RawParsed.image parsed))).
  - intros H. apply map_or_throw_inr in H. destruct H as (x & _ & Hx).
    apply build_raw_inr in Hx. exact (proj1 Hx).
  - destruct (extractImage_any (RawParsed.description parsed)) as [ci|e'] eqn:Ec.
    + intros H. apply map_or_throw_inr in H. destruct H as (x & _ & Hx).
      apply build_raw_inr in Hx. exact (proj1 Hx).
    + apply extractImage_any_inr in Ec. destruct Ec as [_ ->].
      intros H. injection H as <-. reflexivity.
Qed.

Section RawHandlerFacts.
Variable parseURL : jsstring -> RawSettled.

Lemma aggregate_raw_inl feeds acc results :
  aggregate_raw parseURL feeds acc = inl results ->
  forall f, In f feeds -> turn_succeeds parseURL f.
Proof.
  revert acc. induction feeds as [|g rest IH]; intros acc H f Hf; [destruct Hf|].
  cbn [aggregate_raw] in H.
  destruct (parseURL (Feed.url g)) as [parsed|e] eqn:Hg; [|discriminate H].
  destruct (articles_raw g parsed) as [arts|e] eqn:Ha; [|discriminate H].
  destruct Hf as [<-|Hf].
  - exists parsed, arts. auto.
  - exact (IH _ H f Hf).
Qed.

Lemma aggregate_raw_succeeds feeds acc :
  (forall f, In f feeds -> turn_succeeds parseURL f) ->
  exists results, aggregate_raw parseURL feeds acc = inl results.
Proof.
  revert acc. induction feeds as [|g rest IH]; intros acc H.
  - exists acc. reflexivity.
  - cbn [aggregate_raw].
    destruct (H g (or_introl eq_refl)) as (parsed & arts & Hg & Ha).
    rewrite Hg, Ha. apply IH. intros f Hf. apply H. right. exact Hf.
Qed.

Lemma aggregate_raw_inr feeds acc e :
  aggregate_raw parseURL feeds acc = inr e ->
  (exists f, In f feeds /\ parseURL (Feed.url f) = RawRejected e) \/
  e = match_type_error.
Proof.
  revert acc. induction feeds as [|g rest IH]; intros acc H; [discriminate H|].
  cbn [aggregate_raw] in H.
  destruct (parseURL (Feed.url g)) as [parsed|e'] eqn:Hg.
  - destruct (articles_raw g parsed) as [arts|e'] eqn:Ha.
    + destruct (IH _ H) as [(f & Hf & Hr)|He]; [left|right; exact He].
      exists f. split; [right; exact Hf | exact Hr].
    + injection H as <-. right. exact (articles_raw_inr g parsed e' Ha).
  - injection H as <-. left. exists g. split; [left; reflexivity | exact Hg].
Qed.
End RawHandlerFacts.


